(** * Technical indicators and MACD signal analysis

    A shallow embedding of [frontend/utils/technical-indicators.ts] and of
    [analyzeMACDSignal] from [frontend/utils/trading-utilities.ts].

    JavaScript numbers are IEEE 754 binary64 values and are modelled by Rocq's
    primitive floats.  Array lengths, loop counters and the [period]
    arguments are integer valued in every intended call; they are modelled
    in [Z] (so zero and negative periods are covered) and converted to a
    float where the source uses them in float arithmetic.  *)

From Stdlib Require Import String ZArith List Bool Lia Floats.
Import ListNotations.
Local Open Scope Z_scope.

(** ** The fragment of JavaScript the sources use *)

Module JS.

Definition number := float.

Definition NaN : number := nan.

Definition isNaN (x : number) : bool := is_nan x.

(** An integer valued number; exact for magnitudes below 2^53. *)
Definition of_int (z : Z) : number :=
  match z with
  | Z0 => 0%float
  | Zpos _ => of_uint63 (Uint63.of_Z z)
  | Zneg p => (- of_uint63 (Uint63.of_Z (Zpos p)))%float
  end.

(** [a.length] *)
Definition len (a : list number) : Z := Z.of_nat (length a).

(** [a[i]] read in a numeric context: a missing element is [undefined],
    which every arithmetic operator and [isNaN] coerce to NaN. *)
Definition index (a : list number) (i : Z) : number :=
  if i <? 0 then NaN else nth (Z.to_nat i) a NaN.

(** Clamping of a relative index, as [Array.prototype.slice] does it. *)
Definition relative (n k : Z) : Z :=
  if k <? 0 then Z.max (n + k) 0 else Z.min k n.

(** [a.slice(start, stop)] *)
Definition slice (a : list number) (start stop : Z) : list number :=
  let k := relative (len a) start in
  let final := relative (len a) stop in
  firstn (Z.to_nat (Z.max (final - k) 0)) (skipn (Z.to_nat k) a).

(** [a.reduce(f, init)] *)
Definition reduce {A B} (f : B -> A -> B) (a : list A) (init : B) : B :=
  fold_left f a init.

(** The indices visited by [for (let i = lo; i < hi; i++)]. *)
Definition zrange (lo hi : Z) : list Z :=
  map (fun k => lo + Z.of_nat k) (seq 0 (Z.to_nat (hi - lo))).

(** [for (let i = lo; i < hi; i++) s = body i s] *)
Definition for_loop {St : Type} (lo hi : Z) (body : Z -> St -> St) (s : St) : St :=
  fold_left (fun s i => body i s) (zrange lo hi) s.

Definition is_neg_zero (x : number) : bool :=
  (x =? 0)%float && (1 / x <? 0)%float.

(** [Math.min(a, b)]: NaN if either is NaN, and -0 is below +0. *)
Definition Math_min (a b : number) : number :=
  if isNaN a || isNaN b then NaN
  else if (a <? b)%float then a
  else if (b <? a)%float then b
  else if is_neg_zero a then a else b.

(** [Math.max(a, b)]: NaN if either is NaN, and +0 is above -0. *)
Definition Math_max (a b : number) : number :=
  if isNaN a || isNaN b then NaN
  else if (a <? b)%float then b
  else if (b <? a)%float then a
  else if is_neg_zero a then b else a.

Definition Math_abs (x : number) : number := abs x.

Definition Math_sqrt (x : number) : number := sqrt x.

(** [Math.pow(x, 2)], taken as the correctly rounded square. *)
Definition Math_pow2 (x : number) : number := (x * x)%float.

(** [Math.floor(x)]: NaN, the infinities and both zeros are returned as they
    are, and so is a finite number with no fractional bits; otherwise the
    largest integer below [x], which is exactly representable. *)
Definition Math_floor (x : number) : number :=
  match Prim2SF x with
  | S754_finite s m e =>
      if 0 <=? e then x
      else of_int (cond_Zopp s (Zpos m) / 2 ^ (- e))
  | _ => x
  end.

(** What a call that may [throw new Error(message)] produces. *)
Inductive outcome :=
| Return (value : number)
| Throw (message : string).

(** A string, as its sequence of UTF-16 code units. *)
Definition jsstring := list N.

(** A string literal of the source (ASCII only). *)
Definition lit (s : string) : jsstring :=
  map Ascii.N_of_ascii (list_ascii_of_string s).

Definition str_eqb (a b : jsstring) : bool :=
  if list_eq_dec N.eq_dec a b then true else false.

Fixpoint starts_with (s p : jsstring) : bool :=
  match p, s with
  | [], _ => true
  | _ :: _, [] => false
  | c :: p', d :: s' => (c =? d)%N && starts_with s' p'
  end.

(** [s.includes(p)] on strings *)
Fixpoint str_includes (s p : jsstring) : bool :=
  starts_with s p
  || match s with
     | [] => false
     | _ :: s' => str_includes s' p
     end.

(** [a.includes(x)] on an array of strings *)
Definition arr_includes (a : list jsstring) (x : jsstring) : bool :=
  existsb (str_eqb x) a.

(** [s.substring(start, stop)]: both ends are clamped to the string and
    swapped when out of order. *)
Definition substring (s : jsstring) (start stop : Z) : jsstring :=
  let n := Z.of_nat (length s) in
  let a := Z.min (Z.max start 0) n in
  let b := Z.min (Z.max stop 0) n in
  firstn (Z.to_nat (Z.max a b - Z.min a b)) (skipn (Z.to_nat (Z.min a b)) s).

Definition is_upper (c : N) : bool := ((65 <=? c) && (c <=? 90))%N.

Definition is_digit (c : N) : bool := ((48 <=? c) && (c <=? 57))%N.

(** [/^[A-Z]{6}$/.test(s)] *)
Definition test_six_letters (s : jsstring) : bool :=
  (length s =? 6)%nat && forallb is_upper s.

(** [/^[A-Z0-9_\-]+$/.test(s)] *)
Definition test_symbol_chars (s : jsstring) : bool :=
  negb (length s =? 0)%nat
  && forallb (fun c => is_upper c || is_digit c || (c =? 95)%N || (c =? 45)%N) s.

End JS.

(** A local array that is also written through a computed key, as [ema] is
  in [calculateEMA]: the elements, and the properties stored under
  negative keys (which are not elements and do not change [length]). *)

Module JSArray.
Import JS.

Record t := mk { elems : list number; props : list (Z * number) }.

Definition empty : t := mk [] [].

Definition length (a : t) : Z := len (elems a).

Definition push (a : t) (v : number) : t := mk (elems a ++ [v]) (props a).

Definition lookup (k : Z) (ps : list (Z * number)) : option number :=
  option_map snd (find (fun kv => fst kv =? k) ps).

(** [a[i]] read in a numeric context. *)
Definition get (a : t) (i : Z) : number :=
  if i <? 0 then
    match lookup i (props a) with Some v => v | None => NaN end
  else index (elems a) i.

Fixpoint replace (l : list number) (n : nat) (v : number) : list number :=
  match l, n with
  | [], _ => []
  | _ :: l', O => v :: l'
  | x :: l', S n' => x :: replace l' n' v
  end.

(** [a[i] = v]: a negative key adds a property; a key inside the array
    overwrites the element; a key past the end extends the array, the
    holes in between reading as [undefined]. *)
Definition set (a : t) (i : Z) (v : number) : t :=
  if i <? 0 then mk (elems a) ((i, v) :: props a)
  else if i <? length a then mk (replace (elems a) (Z.to_nat i) v) (props a)
  else mk (elems a ++ repeat NaN (Z.to_nat (i - length a)) ++ [v]) (props a).

End JSArray.

(** ** technical-indicators.ts *)

Module TechnicalIndicators.
Import JS.

Record CandleData := mkCandle {
  time : number;
  open : number;
  high : number;
  low : number;
  close : number;
  volume : number
}.

Definition calculateSMA (data : list number) (period : Z) : list number :=
  for_loop 0 (len data)
    (fun i sma =>
       if i <? period - 1 then sma ++ [NaN]
       else
         let sum :=
           reduce (fun a b => (a + b)%float)
                  (slice data (i - period + 1) (i + 1)) 0%float in
         sma ++ [(sum / of_int period)%float])
    [].

(** The first loop of [calculateEMA]: the running sum and the NaN
    placeholders. *)
Definition ema_seed (data : list number) (period : Z) : number * JSArray.t :=
  for_loop 0 (Z.min period (len data))
    (fun i st =>
       ((fst st + index data i)%float, JSArray.push (snd st) NaN))
    (0%float, JSArray.empty).

Definition ema_next (multiplier : number) (data : list number)
           (i : Z) (ema : JSArray.t) : JSArray.t :=
  JSArray.push ema
    ((index data i - JSArray.get ema (i - 1)) * multiplier
     + JSArray.get ema (i - 1))%float.

Definition calculateEMA (data : list number) (period : Z) : list number :=
  let multiplier := (2 / (of_int period + 1))%float in
  let sum := fst (ema_seed data period) in
  let ema := snd (ema_seed data period) in
  let ema :=
    if period <=? len data then
      let firstSMA := (sum / of_int period)%float in
      let ema := JSArray.set ema (period - 1) firstSMA in
      for_loop period (len data) (ema_next multiplier data) ema
    else ema in
  JSArray.elems ema.

(** The mutable locals of [calculateRSI]. *)
Record rsi_state := mkRsi {
  rsi : list number;
  gains : number;
  losses : number;
  avgGain : number;
  avgLoss : number
}.

(** The seeding loop: sums of the gains and losses of the first changes. *)
Definition rsi_seed (data : list number) (period : Z) : number * number :=
  for_loop 1 (Z.min (period + 1) (len data))
    (fun i gl =>
       let change := (index data i - index data (i - 1))%float in
       if (0 <? change)%float then ((fst gl + change)%float, snd gl)
       else (fst gl, (snd gl - change)%float))
    (0%float, 0%float).

(** One iteration of the smoothing loop. *)
Definition rsi_step (data : list number) (period : Z)
           (i : Z) (st : rsi_state) : rsi_state :=
  let change := (index data i - index data (i - 1))%float in
  let gains := if (0 <? change)%float then change else 0%float in
  let losses := if (0 <? change)%float then 0%float else (- change)%float in
  let avgGain :=
    ((avgGain st * (of_int period - 1) + gains) / of_int period)%float in
  let avgLoss :=
    ((avgLoss st * (of_int period - 1) + losses) / of_int period)%float in
  let rs := (avgGain / avgLoss)%float in
  mkRsi (rsi st ++ [(100 - 100 / (1 + rs))%float])
        gains losses avgGain avgLoss.

(** [calculateRSI] with its locals at the moment it returns. *)
Definition calculateRSI_run (data : list number) (period : Z) : rsi_state :=
  let gl := rsi_seed data period in
  let avgGain := (fst gl / of_int period)%float in
  let avgLoss := (snd gl / of_int period)%float in
  for_loop (period + 1) (len data) (rsi_step data period)
    (mkRsi [NaN] (fst gl) (snd gl) avgGain avgLoss).

Definition calculateRSI (data : list number) (period : Z) : list number :=
  rsi (calculateRSI_run data period).

Record Bands := mkBands {
  upper : list number;
  middle : list number;
  lower : list number
}.

(** The standard deviation computed inside the Bollinger loop for the
    window [slice] around [mean]. *)
Definition standardDeviation (slice : list number) (mean : number)
           (period : Z) : number :=
  let squaredDiffs := map (fun value => Math_pow2 (value - mean)%float) slice in
  let avgSquaredDiff :=
    (reduce (fun a b => (a + b)%float) squaredDiffs 0 / of_int period)%float in
  Math_sqrt avgSquaredDiff.

Definition calculateBollingerBands (data : list number) (period : Z)
           (stdDev : number) : Bands :=
  let sma := calculateSMA data period in
  for_loop 0 (len data)
    (fun i b =>
       if i <? period - 1 then
         mkBands (upper b ++ [NaN]) (middle b ++ [NaN]) (lower b ++ [NaN])
       else
         let slice := slice data (i - period + 1) (i + 1) in
         let mean := index sma i in
         let sd := standardDeviation slice mean period in
         mkBands (upper b ++ [(mean + sd * stdDev)%float])
                 (middle b ++ [mean])
                 (lower b ++ [(mean - sd * stdDev)%float]))
    (mkBands [] [] []).

Record MACD := mkMACD {
  macd : list number;
  signal : list number;
  histogram : list number
}.

(** MACD line = fast EMA - slow EMA *)
Definition macd_line (data fastEMA slowEMA : list number) : list number :=
  for_loop 0 (len data)
    (fun i macd =>
       if isNaN (index fastEMA i) || isNaN (index slowEMA i)
       then macd ++ [NaN]
       else macd ++ [(index fastEMA i - index slowEMA i)%float])
    [].

(** Histogram = MACD - signal; the state is the histogram so far and
    [signalIndex]. *)
Definition histogram_step (macd signal : list number)
           (i : Z) (st : list number * Z) : list number * Z :=
  if isNaN (index macd i) then (fst st ++ [NaN], snd st)
  else if snd st <? len signal then
    (fst st ++ [(index macd i - index signal (snd st))%float], snd st + 1)
  else (fst st ++ [NaN], snd st).

Definition calculateMACD (data : list number)
           (fastPeriod slowPeriod signalPeriod : Z) : MACD :=
  let fastEMA := calculateEMA data fastPeriod in
  let slowEMA := calculateEMA data slowPeriod in
  let macd := macd_line data fastEMA slowEMA in
  let signal :=
    calculateEMA (filter (fun val => negb (isNaN val)) macd) signalPeriod in
  let histogram :=
    fst (for_loop 0 (len macd) (histogram_step macd signal) ([], 0)) in
  mkMACD macd signal histogram.

(** [data[i]] for an array of candles ([i] is always in range here). *)
Definition candle (data : list CandleData) (i : Z) : CandleData :=
  nth (Z.to_nat i) data (mkCandle NaN NaN NaN NaN NaN NaN).

Definition trueRange (data : list CandleData) : list number :=
  for_loop 0 (Z.of_nat (length data))
    (fun i tr =>
       if i =? 0 then tr ++ [(high (candle data i) - low (candle data i))%float]
       else
         let highLow := (high (candle data i) - low (candle data i))%float in
         let highClose :=
           Math_abs (high (candle data i) - close (candle data (i - 1)))%float in
         let lowClose :=
           Math_abs (low (candle data i) - close (candle data (i - 1)))%float in
         tr ++ [Math_max (Math_max highLow highClose) lowClose])
    [].

Definition calculateATR (data : list CandleData) (period : Z) : list number :=
  calculateEMA (trueRange data) period.

End TechnicalIndicators.

(** ** trading-utilities.ts *)

Module TradingUtilities.
Import JS.

Inductive AssetType := forex | crypto | stock.

Definition currencies : list jsstring :=
  map lit
    ["USD"; "EUR"; "GBP"; "JPY"; "AUD"; "CAD"; "CHF"; "CNY"; "NZD";
     "SEK"; "NOK"; "DKK"; "PLN"; "HUF"; "CZK"; "RUB"; "TRY"; "ZAR";
     "SGD"; "HKD"; "KRW"; "INR"; "MXN"; "BRL"; "ARS"; "CLP"]%string.

Definition metals : list jsstring :=
  map lit ["XAU"; "XAG"; "XPT"; "XPD"]%string.

Section Symbols.

(** [String.prototype.trim] and [String.prototype.toUpperCase] are built-ins
    defined over all of Unicode; the functions below are stated for any
    implementation of them. *)
Variable trim : jsstring -> jsstring.
Variable toUpperCase : jsstring -> jsstring.

(** [symbol.trim().toUpperCase()] *)
Definition normalize (symbol : jsstring) : jsstring := toUpperCase (trim symbol).

Definition getAssetType (symbol : jsstring) : AssetType :=
  let normalized := normalize symbol in
  let is_forex :=
    if (length normalized =? 6)%nat && test_six_letters normalized then
      let base := substring normalized 0 3 in
      let quote := substring normalized 3 6 in
      (arr_includes currencies base && arr_includes currencies quote)
      || (arr_includes metals base && arr_includes currencies quote)
      || (arr_includes currencies base && arr_includes metals quote)
    else false in
  if is_forex then forex
  else if str_includes normalized (lit "-") then crypto
  else stock.

Definition validateSymbol (symbol : jsstring) : bool :=
  let normalized := normalize symbol in
  if (length normalized =? 0)%nat then false
  else test_symbol_chars normalized.

End Symbols.

Definition calculatePositionSize
           (accountBalance riskPercentage entryPrice stopLoss : number)
  : outcome :=
  if (entryPrice <=? 0)%float || (stopLoss <=? 0)%float then
    Throw "Entry price and stop loss must be positive"
  else if (riskPercentage <=? 0)%float || (100 <? riskPercentage)%float then
    Throw "Risk percentage must be between 0 and 100"
  else
    let riskAmount := (accountBalance * (riskPercentage / 100))%float in
    let riskPerShare := Math_abs (entryPrice - stopLoss)%float in
    Return (Math_floor (riskAmount / riskPerShare)%float).

Inductive TradeType := LONG | SHORT.

Definition calculateProfitLossPercentage
           (entryPrice exitPrice : number) (tradeType : TradeType) : outcome :=
  if (entryPrice <=? 0)%float || (exitPrice <=? 0)%float then
    Throw "Prices must be positive"
  else
    let profitLoss := (exitPrice - entryPrice)%float in
    let profitLossPercentage := (profitLoss / entryPrice * 100)%float in
    match tradeType with
    | SHORT => Return (- profitLossPercentage)%float
    | LONG => Return profitLossPercentage
    end.

Definition calculateRiskRewardRatio
           (entryPrice stopLoss takeProfit : number) : outcome :=
  if (entryPrice <=? 0)%float || (stopLoss <=? 0)%float
     || (takeProfit <=? 0)%float then
    Throw "All prices must be positive"
  else
    let risk := Math_abs (entryPrice - stopLoss)%float in
    let reward := Math_abs (takeProfit - entryPrice)%float in
    if (risk =? 0)%float then Throw "Risk cannot be zero"
    else Return (reward / risk)%float.

Inductive SignalType := bullish | bearish | neutral.

Record MACDSignal := mkSignal {
  type : SignalType;
  strength : number;
  description : string
}.

Definition analyzeMACDSignal (macdLine signalLine histogram : list number)
  : MACDSignal :=
  if (len macdLine <? 3) || (len signalLine <? 3) then
    mkSignal neutral 0%float "Insufficient data"
  else
    let currentMACD := index macdLine (len macdLine - 1) in
    let currentSignal := index signalLine (len signalLine - 1) in
    let currentHistogram := index histogram (len histogram - 1) in
    let previousMACD := index macdLine (len macdLine - 2) in
    let previousSignal := index signalLine (len signalLine - 2) in
    if (previousMACD <=? previousSignal)%float
       && (currentSignal <? currentMACD)%float then
      mkSignal bullish
               (Math_min (Math_abs currentHistogram * 10)%float 100%float)
               "MACD bullish crossover"
    else if (previousSignal <=? previousMACD)%float
            && (currentMACD <? currentSignal)%float then
      mkSignal bearish
               (Math_min (Math_abs currentHistogram * 10)%float 100%float)
               "MACD bearish crossover"
    else
      mkSignal neutral 0%float "No clear MACD signal".

End TradingUtilities.

(** ** Reference notions used to state the properties *)

Module Reference.
Import JS TechnicalIndicators TradingUtilities.

(** The sum of [s[lo], ..., s[hi - 1]], accumulated from 0 in index order
    (a naive loop). *)
Definition sum_range (s : list number) (lo hi : Z) : number :=
  fold_left (fun a b => (a + b)%float) (map (index s) (zrange lo hi)) 0%float.

(** The arithmetic mean of the trailing window [s[i - p + 1 .. i]]. *)
Definition window_mean (s : list number) (i p : Z) : number :=
  (sum_range s (i - p + 1) (i + 1) / of_int p)%float.

(** The population standard deviation of the trailing window around
    [mean]: the squared differences are summed and divided by [p]. *)
Definition population_sd (s : list number) (i p : Z) (mean : number) : number :=
  sqrt (fold_left (fun a b => (a + b)%float)
          (map (fun j => ((index s j - mean) * (index s j - mean))%float)
               (zrange (i - p + 1) (i + 1)))
          0%float
        / of_int p)%float.

Definition defined (x : number) : bool := negb (isNaN x).

(** How many entries of [l] are defined. *)
Definition count_defined (l : list number) : Z := len (filter defined l).

(** How many entries of [l] before index [i] are defined. *)
Definition rank_defined (l : list number) (i : Z) : Z :=
  count_defined (firstn (Z.to_nat i) l).

(** The value [calculateSMA] pushes at index [i]. *)
Definition sma_at (data : list number) (period : Z) (i : Z) : number :=
  if i <? period - 1 then NaN
  else (reduce (fun a b => (a + b)%float)
               (slice data (i - period + 1) (i + 1)) 0 / of_int period)%float.

(** The value [calculateMACD] pushes on the macd line at index [i]. *)
Definition macd_at (fastEMA slowEMA : list number) (i : Z) : number :=
  if isNaN (index fastEMA i) || isNaN (index slowEMA i) then NaN
  else (index fastEMA i - index slowEMA i)%float.

(** The values [calculateBollingerBands] pushes at index [i]. *)
Definition sd_at (data : list number) (period : Z) (i : Z) : number :=
  standardDeviation (slice data (i - period + 1) (i + 1))
                    (index (calculateSMA data period) i) period.

Definition upper_at (data : list number) (period : Z) (stdDev : number)
           (i : Z) : number :=
  if i <? period - 1 then NaN
  else (index (calculateSMA data period) i
        + sd_at data period i * stdDev)%float.

Definition middle_at (data : list number) (period : Z) (i : Z) : number :=
  if i <? period - 1 then NaN else index (calculateSMA data period) i.

Definition lower_at (data : list number) (period : Z) (stdDev : number)
           (i : Z) : number :=
  if i <? period - 1 then NaN
  else (index (calculateSMA data period) i
        - sd_at data period i * stdDev)%float.

(** The most recent point of a series and the one before it. *)
Definition last_point (l : list number) : number := last l NaN.

Definition previous_point (l : list number) : number :=
  last (removelast l) NaN.

(** The strength of a crossover: [|h| * 10], capped at 100. *)
Definition crossover_strength (h : number) : number :=
  Math_min (abs h * 10)%float 100%float.

Definition bullish_crossover (macdLine signalLine : list number) : bool :=
  (previous_point macdLine <=? previous_point signalLine)%float
  && (last_point signalLine <? last_point macdLine)%float.

Definition bearish_crossover (macdLine signalLine : list number) : bool :=
  (previous_point signalLine <=? previous_point macdLine)%float
  && (last_point macdLine <? last_point signalLine)%float.

Definition insufficient_data : MACDSignal :=
  mkSignal neutral 0%float "Insufficient data".

(** The value is not NaN and carries sign bit [sx]. *)
Definition has_sign (sx : bool) (x : spec_float) : Prop :=
  match x with
  | S754_nan => False
  | S754_zero s | S754_infinity s | S754_finite s _ _ => s = sx
  end.

End Reference.

Import JS TechnicalIndicators TradingUtilities Reference.

(** ** Sample runs *)

Example sma_sample :
  calculateSMA [1; 2; 3; 4]%float 2 = [NaN; 1.5; 2.5; 3.5]%float.
Proof. reflexivity. Qed.

Example ema_sample :
  calculateEMA [1; 2; 3; 6]%float 3 = [NaN; NaN; 2; 4]%float.
Proof. reflexivity. Qed.

(** ** Loops and arrays *)

Lemma zrange_nil lo hi : hi <= lo -> zrange lo hi = [].
Proof.
  intros H. unfold zrange.
  replace (Z.to_nat (hi - lo)) with 0%nat by lia. reflexivity.
Qed.

Lemma zrange_snoc lo hi : lo <= hi -> zrange lo (hi + 1) = zrange lo hi ++ [hi].
Proof.
  intros H. unfold zrange.
  replace (Z.to_nat (hi + 1 - lo)) with (S (Z.to_nat (hi - lo))) by lia.
  rewrite seq_S, map_app. simpl. do 2 f_equal. lia.
Qed.

Lemma zrange_length lo hi : length (zrange lo hi) = Z.to_nat (hi - lo).
Proof. unfold zrange. now rewrite length_map, length_seq. Qed.

Lemma zrange_nth lo hi k d :
  (k < Z.to_nat (hi - lo))%nat -> nth k (zrange lo hi) d = lo + Z.of_nat k.
Proof.
  intros H. unfold zrange.
  rewrite nth_indep with (d' := lo + Z.of_nat 0)
    by now rewrite length_map, length_seq.
  rewrite (map_nth (fun k => lo + Z.of_nat k)), seq_nth by assumption.
  reflexivity.
Qed.

Lemma for_loop_nil {St} lo hi (body : Z -> St -> St) s :
  hi <= lo -> for_loop lo hi body s = s.
Proof. intros H. unfold for_loop. now rewrite zrange_nil. Qed.

Lemma for_loop_snoc {St} lo hi (body : Z -> St -> St) s :
  lo <= hi -> for_loop lo (hi + 1) body s = body hi (for_loop lo hi body s).
Proof.
  intros H. unfold for_loop. now rewrite zrange_snoc, fold_left_app.
Qed.

(** The invariant rule for [for] loops. *)
Lemma for_loop_ind {St} (P : Z -> St -> Prop) lo hi (body : Z -> St -> St) s :
  lo <= hi ->
  P lo s ->
  (forall i st, lo <= i < hi -> P i st -> P (i + 1) (body i st)) ->
  P hi (for_loop lo hi body s).
Proof.
  intros Hle H0 Hstep.
  assert (Hn : forall n, lo + Z.of_nat n <= hi ->
                         P (lo + Z.of_nat n) (for_loop lo (lo + Z.of_nat n) body s)).
  { induction n as [|n IH]; intros Hb.
    - rewrite Z.add_0_r, for_loop_nil by lia. exact H0.
    - replace (lo + Z.of_nat (S n)) with (lo + Z.of_nat n + 1) by lia.
      rewrite for_loop_snoc by lia. apply Hstep; [lia | apply IH; lia]. }
  specialize (Hn (Z.to_nat (hi - lo))).
  replace (lo + Z.of_nat (Z.to_nat (hi - lo))) with hi in Hn by lia.
  apply Hn. lia.
Qed.

(** A loop whose body only pushes builds the list of the pushed values. *)
Lemma for_loop_push lo hi (body : Z -> list number -> list number)
      (f : Z -> number) acc :
  (forall i a, lo <= i < hi -> body i a = a ++ [f i]) ->
  for_loop lo hi body acc = acc ++ map f (zrange lo hi).
Proof.
  intros Hb. destruct (Z.le_gt_cases lo hi) as [Hle|Hgt].
  - apply (for_loop_ind (fun i a => a = acc ++ map f (zrange lo i))); trivial.
    + rewrite zrange_nil by lia. now rewrite app_nil_r.
    + intros i st Hi ->. rewrite Hb, zrange_snoc, map_app, app_assoc by lia.
      reflexivity.
  - rewrite for_loop_nil, zrange_nil by lia. now rewrite app_nil_r.
Qed.

Lemma len_nonneg a : 0 <= len a.
Proof. unfold len. lia. Qed.

Lemma len_app a b : len (a ++ b) = len a + len b.
Proof. unfold len. rewrite length_app. lia. Qed.

Lemma len_map_zrange (f : Z -> number) lo hi :
  len (map f (zrange lo hi)) = Z.max 0 (hi - lo).
Proof. unfold len. rewrite length_map, zrange_length. lia. Qed.

Lemma index_map_zrange (f : Z -> number) lo hi i :
  0 <= i < hi - lo -> index (map f (zrange lo hi)) i = f (lo + i).
Proof.
  intros H. unfold index.
  destruct (Z.ltb_spec i 0) as [?|_]; [lia|].
  rewrite nth_indep with (d' := f 0) by (rewrite length_map, zrange_length; lia).
  rewrite map_nth, zrange_nth by lia. f_equal. lia.
Qed.

Lemma index_app_l a b i : 0 <= i < len a -> index (a ++ b) i = index a i.
Proof.
  unfold index, len. intros H.
  destruct (Z.ltb_spec i 0); [lia|]. apply app_nth1. lia.
Qed.

Lemma index_app_r a v : index (a ++ [v]) (len a) = v.
Proof.
  unfold index, len.
  destruct (Z.ltb_spec (Z.of_nat (length a)) 0); [lia|].
  rewrite Nat2Z.id, app_nth2, Nat.sub_diag by lia. reflexivity.
Qed.

Lemma index_app_end a v i : len a = i -> index (a ++ [v]) i = v.
Proof. intros <-. apply index_app_r. Qed.

(** Inside the array, [slice] is the window read element by element. *)
Lemma slice_window a lo hi :
  0 <= lo -> 0 <= hi <= len a ->
  slice a lo hi = map (index a) (zrange lo hi).
Proof.
  intros H1 H2. unfold slice, relative.
  destruct (Z.ltb_spec lo 0); [lia|]. destruct (Z.ltb_spec hi 0); [lia|].
  destruct (Z.le_gt_cases lo hi) as [Hle|Hgt].
  - unfold len in *. rewrite !Z.min_l by lia.
    replace (Z.max (hi - lo) 0) with (hi - lo) by lia.
    apply nth_ext with (d := NaN) (d' := index a 0).
    + rewrite length_firstn, length_skipn, length_map, zrange_length. lia.
    + intros n Hn. rewrite length_firstn, length_skipn in Hn.
      rewrite nth_firstn, nth_skipn.
      destruct (Nat.ltb_spec n (Z.to_nat (hi - lo))); [|lia].
      rewrite map_nth, zrange_nth by lia. unfold index.
      destruct (Z.ltb_spec (lo + Z.of_nat n) 0); [lia|].
      f_equal. lia.
  - rewrite zrange_nil by lia.
    replace (Z.to_nat (Z.max (Z.min hi (len a) - Z.min lo (len a)) 0))
      with 0%nat by lia.
    reflexivity.
Qed.

(** ** calculateSMA *)

Lemma calculateSMA_map data period :
  calculateSMA data period = map (sma_at data period) (zrange 0 (len data)).
Proof.
  unfold calculateSMA.
  rewrite for_loop_push with (f := sma_at data period); [reflexivity|].
  intros i a _. unfold sma_at. now destruct (i <? period - 1).
Qed.

Lemma calculateSMA_len data period : len (calculateSMA data period) = len data.
Proof.
  rewrite calculateSMA_map, len_map_zrange. pose proof (len_nonneg data). lia.
Qed.

Lemma calculateSMA_index data period i :
  0 <= i < len data -> index (calculateSMA data period) i = sma_at data period i.
Proof.
  intros H. rewrite calculateSMA_map, index_map_zrange by lia. reflexivity.
Qed.

(** C8. For every series [s] and period [p >= 1], [calculateSMA s p] has the
    length of [s]; its entries at indices [i < p - 1] are NaN; when
    [len s >= p] the entry at each index [i >= p - 1] is the arithmetic mean
    of [s[i - p + 1 .. i]] (the window summed in index order and divided by
    [p]); and when [len s < p] every entry is NaN.  The function is total:
    no input raises an error. *)
Theorem calculateSMA_spec (s : list number) (p : Z) :
  1 <= p ->
  len (calculateSMA s p) = len s
  /\ (forall i, 0 <= i < len s -> i < p - 1 ->
                index (calculateSMA s p) i = NaN)
  /\ (p <= len s ->
      forall i, p - 1 <= i < len s ->
                index (calculateSMA s p) i = window_mean s i p)
  /\ (len s < p ->
      forall i, 0 <= i < len s -> index (calculateSMA s p) i = NaN).
Proof.
  intros Hp. split; [apply calculateSMA_len|]. split; [|split].
  - intros i Hi Hlt. rewrite calculateSMA_index by assumption.
    unfold sma_at. destruct (Z.ltb_spec i (p - 1)); [reflexivity|lia].
  - intros _ i Hi. rewrite calculateSMA_index by lia.
    unfold sma_at, window_mean, sum_range, reduce.
    destruct (Z.ltb_spec i (p - 1)); [lia|].
    rewrite slice_window by lia. reflexivity.
  - intros Hshort i Hi. rewrite calculateSMA_index by assumption.
    unfold sma_at. destruct (Z.ltb_spec i (p - 1)); [reflexivity|lia].
Qed.

Lemma calculateSMA_spec_witness :
  1 <= 2
  /\ len (calculateSMA [1; 2; 3; 4]%float 2) = len [1; 2; 3; 4]%float.
Proof.
  split; [lia|].
  exact (proj1 (calculateSMA_spec [1; 2; 3; 4]%float 2 ltac:(lia))).
Defined.

(** ** IEEE 754 facts, from the specification of the primitive floats *)

Lemma SFadd_comm prec emax x y : SFadd prec emax x y = SFadd prec emax y x.
Proof.
  destruct x as [sx|sx| |sx mx ex], y as [sy|sy| |sy my ey]; simpl;
    try reflexivity.
  - destruct sx, sy; reflexivity.
  - destruct sx, sy; reflexivity.
  - rewrite (Z.min_comm ey ex). f_equal. apply Z.add_comm.
Qed.

Lemma SFmul_comm prec emax x y : SFmul prec emax x y = SFmul prec emax y x.
Proof.
  destruct x as [sx|sx| |sx mx ex], y as [sy|sy| |sy my ey]; simpl;
    try reflexivity; try (now rewrite xorb_comm).
  now rewrite xorb_comm, Pos.mul_comm, Z.add_comm.
Qed.

Lemma float_add_comm (x y : number) : (x + y = y + x)%float.
Proof. apply Prim2SF_inj. rewrite !add_spec. apply SFadd_comm. Qed.

Lemma float_mul_comm (x y : number) : (x * y = y * x)%float.
Proof. apply Prim2SF_inj. rewrite !mul_spec. apply SFmul_comm. Qed.

Lemma SFcompare_antisym x y :
  SFcompare x y = Some Lt -> SFcompare y x = Some Gt.
Proof.
  destruct x as [sx|sx| |sx mx ex], y as [sy|sy| |sy my ey]; simpl;
    try discriminate;
    try (destruct sx; discriminate || reflexivity);
    try (destruct sy; discriminate || reflexivity);
    try (destruct sx, sy; discriminate || reflexivity).
  assert (Hm : PosDef.Pos.compare_cont Eq my mx
               = CompOpp (PosDef.Pos.compare_cont Eq mx my))
    by (symmetry; apply (Pos.compare_cont_antisym mx my Eq)).
  rewrite (Z.compare_antisym ex ey), Hm.
  destruct sx, sy, (ex ?= ey), (PosDef.Pos.compare_cont Eq mx my);
    simpl; discriminate || reflexivity.
Qed.

Lemma float_ltb_asym (x y : number) :
  (x <? y)%float = true -> (y <? x)%float = false.
Proof.
  rewrite !ltb_spec. unfold SFltb.
  destruct (SFcompare (Prim2SF x) (Prim2SF y)) as [[]|] eqn:E;
    try discriminate.
  intros _. now rewrite (SFcompare_antisym _ _ E).
Qed.

(** Division by a zero average loss: a positive average gain saturates the
    formula at 100 through an infinite ratio. *)
Lemma rsi_formula_zero_loss (g l : number) :
  (l =? 0)%float = true -> (0 <? g)%float = true ->
  (100 - 100 / (1 + g / l))%float = 100%float.
Proof.
  rewrite eqb_spec, ltb_spec. intros Hl Hg.
  apply Prim2SF_inj.
  rewrite sub_spec, div_spec, add_spec, div_spec.
  destruct (Prim2SF l) as [sl|sl| |sl ml el];
    try (discriminate Hl || (destruct sl; discriminate Hl)).
  destruct (Prim2SF g) as [sg|sg| |sg mg eg];
    try discriminate Hg; destruct sg; try discriminate Hg;
    destruct sl; reflexivity.
Qed.

(** With no gain either, the ratio is 0/0 and the formula yields NaN. *)
Lemma rsi_formula_zero_both (g l : number) :
  (l =? 0)%float = true -> (g =? 0)%float = true ->
  (100 - 100 / (1 + g / l))%float = NaN.
Proof.
  rewrite !eqb_spec. intros Hl Hg.
  apply Prim2SF_inj.
  rewrite sub_spec, div_spec, add_spec, div_spec.
  destruct (Prim2SF l) as [sl|sl| |sl ml el];
    try (discriminate Hl || (destruct sl; discriminate Hl)).
  destruct (Prim2SF g) as [sg|sg| |sg mg eg];
    try (discriminate Hg || (destruct sg; discriminate Hg)).
  reflexivity.
Qed.

(** ** calculateEMA *)

Lemma sum_range_nil s lo hi : hi <= lo -> sum_range s lo hi = 0%float.
Proof. intros H. unfold sum_range. now rewrite zrange_nil. Qed.

Lemma sum_range_snoc s lo hi :
  lo <= hi -> sum_range s lo (hi + 1) = (sum_range s lo hi + index s hi)%float.
Proof.
  intros H. unfold sum_range.
  now rewrite zrange_snoc, map_app, fold_left_app by assumption.
Qed.

Lemma ema_seed_spec data period :
  let m := Z.min period (len data) in
  ema_seed data period
  = (sum_range data 0 m, JSArray.mk (repeat NaN (Z.to_nat m)) []).
Proof.
  intros m. unfold ema_seed. fold m.
  destruct (Z.le_gt_cases 0 m) as [Hm|Hm].
  - apply (for_loop_ind
             (fun i st => st = (sum_range data 0 i,
                                JSArray.mk (repeat NaN (Z.to_nat i)) [])));
      [assumption | now rewrite sum_range_nil by lia |].
    intros i st Hi ->. simpl. rewrite sum_range_snoc by lia.
    unfold JSArray.push. simpl.
    replace (Z.to_nat (i + 1)) with (S (Z.to_nat i)) by lia.
    simpl. now rewrite repeat_cons.
  - rewrite for_loop_nil, sum_range_nil by lia.
    replace (Z.to_nat m) with 0%nat by lia. reflexivity.
Qed.

Lemma replace_length l n v : length (JSArray.replace l n v) = length l.
Proof.
  revert n. induction l as [|x l IH]; intros [|n]; simpl; auto.
Qed.

Lemma replace_nth_eq l n v d :
  (n < length l)%nat -> nth n (JSArray.replace l n v) d = v.
Proof.
  revert n. induction l as [|x l IH]; intros [|n] H; simpl in *;
    try lia; auto. apply IH. lia.
Qed.

Lemma replace_nth_neq l n m v d :
  n <> m -> nth m (JSArray.replace l n v) d = nth m l d.
Proof.
  revert n m. induction l as [|x l IH]; intros [|n] [|m] H; simpl;
    try reflexivity; try congruence. apply IH. congruence.
Qed.

Lemma ema_loop_length mult data lo hi a :
  JSArray.length (for_loop lo hi (ema_next mult data) a)
  = JSArray.length a + Z.max 0 (hi - lo).
Proof.
  destruct (Z.le_gt_cases lo hi) as [Hle|Hgt].
  - apply (for_loop_ind
             (fun i st => JSArray.length st = JSArray.length a + Z.max 0 (i - lo)));
      [assumption | lia |].
    intros i st Hi IH. unfold ema_next, JSArray.push, JSArray.length in *.
    simpl. rewrite len_app, IH. unfold len. simpl. lia.
  - rewrite for_loop_nil by lia. lia.
Qed.

Lemma len_repeat (x : number) n : len (repeat x n) = Z.of_nat n.
Proof. unfold len. now rewrite repeat_length. Qed.

Lemma len_replace l n v : len (JSArray.replace l n v) = len l.
Proof. unfold len. now rewrite replace_length. Qed.

(** The length of an EMA: the input's length, except that a negative period
    makes the second loop start below index 0 and push [- period] extra
    entries. *)
Lemma calculateEMA_len data period :
  len (calculateEMA data period) = Z.max (len data) (len data - period).
Proof.
  pose proof (len_nonneg data) as Hn.
  unfold calculateEMA. rewrite ema_seed_spec. cbn [fst snd].
  destruct (Z.leb_spec period (len data)) as [Hle|Hgt].
  - change (len (JSArray.elems ?a)) with (JSArray.length a).
    rewrite ema_loop_length. rewrite Z.min_l by assumption.
    unfold JSArray.set, JSArray.length. cbn [JSArray.elems JSArray.props].
    rewrite len_repeat.
    destruct (Z.ltb_spec (period - 1) 0) as [Hneg|Hpos];
      cbn [JSArray.elems JSArray.props].
    + rewrite len_repeat. lia.
    + destruct (Z.ltb_spec (period - 1) (Z.of_nat (Z.to_nat period))); [|lia].
      cbn [JSArray.elems JSArray.props]. rewrite len_replace, len_repeat. lia.
  - cbn [JSArray.elems]. rewrite Z.min_r, len_repeat by lia. lia.
Qed.

Lemma calculateEMA_len_nonneg data period :
  0 <= period -> len (calculateEMA data period) = len data.
Proof. intros H. rewrite calculateEMA_len. lia. Qed.

Lemma get_nonneg a i : 0 <= i -> JSArray.get a i = index (JSArray.elems a) i.
Proof.
  intros H. unfold JSArray.get. now destruct (Z.ltb_spec i 0); [lia|].
Qed.

(** What the smoothing loop of [calculateEMA] maintains, for [period >= 1]. *)
Lemma ema_loop_inv mult data period first a :
  1 <= period <= len data ->
  JSArray.length a = period ->
  (forall j, 0 <= j < period - 1 -> index (JSArray.elems a) j = NaN) ->
  index (JSArray.elems a) (period - 1) = first ->
  let r := JSArray.elems (for_loop period (len data) (ema_next mult data) a) in
  len r = len data
  /\ (forall j, 0 <= j < period - 1 -> index r j = NaN)
  /\ index r (period - 1) = first
  /\ (forall j, period <= j < len data ->
        index r j
        = ((index data j - index r (j - 1)) * mult + index r (j - 1))%float).
Proof.
  intros Hp Hlen Hnan Hfirst r. subst r.
  apply (for_loop_ind
           (fun i st =>
              let r := JSArray.elems st in
              len r = i
              /\ (forall j, 0 <= j < period - 1 -> index r j = NaN)
              /\ index r (period - 1) = first
              /\ (forall j, period <= j < i ->
                    index r j
                    = ((index data j - index r (j - 1)) * mult
                       + index r (j - 1))%float))).
  - lia.
  - cbn zeta. repeat split; trivial. intros j Hj. lia.
  - intros i st Hi (Hl & Hn & Hf & Hrec). cbn zeta.
    unfold ema_next, JSArray.push. cbn [JSArray.elems].
    rewrite get_nonneg by lia.
    set (v := ((index data i - index (JSArray.elems st) (i - 1)) * mult
               + index (JSArray.elems st) (i - 1))%float).
    repeat split.
    + rewrite len_app, Hl. reflexivity.
    + intros j Hj. rewrite index_app_l by lia. now apply Hn.
    + rewrite index_app_l by lia. exact Hf.
    + intros j Hj. destruct (Z.eq_dec j i) as [->|Hne].
      * rewrite <- Hl at 1. rewrite index_app_r, index_app_l by lia.
        reflexivity.
      * rewrite !index_app_l by lia. apply Hrec. lia.
Qed.

Lemma index_repeat_NaN n j : index (repeat NaN n) j = NaN.
Proof.
  unfold index. destruct (j <? 0); [reflexivity|].
  destruct (Nat.lt_ge_cases (Z.to_nat j) n) as [H|H].
  - now rewrite nth_repeat_lt.
  - apply nth_overflow. now rewrite repeat_length.
Qed.

(** Writing the first SMA over the last placeholder. *)
Lemma set_last_placeholder period v :
  1 <= period ->
  JSArray.set (JSArray.mk (repeat NaN (Z.to_nat period)) []) (period - 1) v
  = JSArray.mk (JSArray.replace (repeat NaN (Z.to_nat period))
                                (Z.to_nat (period - 1)) v) [].
Proof.
  intros Hp. unfold JSArray.set, JSArray.length.
  cbn [JSArray.elems JSArray.props]. rewrite len_repeat.
  destruct (Z.ltb_spec (period - 1) 0); [lia|].
  now destruct (Z.ltb_spec (period - 1) (Z.of_nat (Z.to_nat period))); [|lia].
Qed.

(** The EMA for [1 <= period <= len data], entry by entry. *)
Lemma calculateEMA_values data period :
  1 <= period <= len data ->
  let r := calculateEMA data period in
  let mult := (2 / (of_int period + 1))%float in
  len r = len data
  /\ (forall j, 0 <= j < period - 1 -> index r j = NaN)
  /\ index r (period - 1) = (sum_range data 0 period / of_int period)%float
  /\ (forall j, period <= j < len data ->
        index r j
        = ((index data j - index r (j - 1)) * mult + index r (j - 1))%float).
Proof.
  intros Hp. unfold calculateEMA. rewrite ema_seed_spec. cbn [fst snd].
  rewrite Z.min_l by lia.
  destruct (Z.leb_spec period (len data)); [|lia].
  rewrite set_last_placeholder by lia.
  apply ema_loop_inv; trivial; unfold JSArray.length; cbn [JSArray.elems].
  - rewrite len_replace, len_repeat. lia.
  - intros j Hj. unfold index at 1.
    destruct (Z.ltb_spec j 0); [reflexivity|].
    rewrite replace_nth_neq by lia.
    pose proof (index_repeat_NaN (Z.to_nat period) j) as Hr.
    unfold index in Hr. destruct (Z.ltb_spec j 0); [lia|]. exact Hr.
  - unfold index. destruct (Z.ltb_spec (period - 1) 0); [lia|].
    apply replace_nth_eq. rewrite repeat_length. lia.
Qed.

(** C9. For [1 <= p <= len s]: the EMA at index [p - 1] is exactly the SMA
    at index [p - 1]; every earlier index is NaN; and every entry at an
    index [i >= p] is [prev + (2 / (p + 1)) * (s[i] - prev)] with [prev] the
    entry at index [i - 1]. *)
Theorem calculateEMA_spec (s : list number) (p : Z) :
  1 <= p -> p <= len s ->
  index (calculateEMA s p) (p - 1) = index (calculateSMA s p) (p - 1)
  /\ (forall i, 0 <= i < p - 1 -> index (calculateEMA s p) i = NaN)
  /\ (forall i, p <= i < len s ->
        let prev := index (calculateEMA s p) (i - 1) in
        index (calculateEMA s p) i
        = (prev + (2 / (of_int p + 1)) * (index s i - prev))%float).
Proof.
  intros H1 H2.
  destruct (calculateEMA_values s p ltac:(lia)) as (_ & Hnan & Hseed & Hrec).
  split; [|split].
  - rewrite Hseed, calculateSMA_index by lia. unfold sma_at, reduce.
    destruct (Z.ltb_spec (p - 1) (p - 1)); [lia|].
    replace (p - 1 - p + 1) with 0 by lia.
    replace (p - 1 + 1) with p by lia.
    rewrite slice_window by lia. reflexivity.
  - exact Hnan.
  - intros i Hi prev. subst prev. rewrite Hrec by assumption.
    rewrite float_add_comm. f_equal. apply float_mul_comm.
Qed.

Lemma calculateEMA_spec_witness :
  1 <= 3 /\ 3 <= len [1; 2; 3; 6]%float
  /\ index (calculateEMA [1; 2; 3; 6]%float 3) (3 - 1)
     = index (calculateSMA [1; 2; 3; 6]%float 3) (3 - 1).
Proof.
  split; [lia|]. split; [vm_compute; discriminate|].
  exact (proj1 (calculateEMA_spec [1; 2; 3; 6]%float 3 ltac:(lia)
                                  ltac:(vm_compute; discriminate))).
Defined.

(** ** calculateRSI *)

Example rsi_sample_rising :
  calculateRSI [1; 2; 3; 4]%float 1 = [NaN; 100; 100]%float.
Proof. reflexivity. Qed.

Example rsi_sample_mixed :
  calculateRSI [1; 2; 1; 2]%float 1 = [NaN; 0; 100]%float.
Proof. reflexivity. Qed.

Lemma rsi_step_rsi data period i st :
  rsi (rsi_step data period i st)
  = rsi st ++ [(100 - 100 / (1 + avgGain (rsi_step data period i st)
                                   / avgLoss (rsi_step data period i st)))%float].
Proof. reflexivity. Qed.

Lemma calculateRSI_run_shape data period :
  let st := calculateRSI_run data period in
  len (rsi st) = 1 + Z.max 0 (len data - (period + 1))
  /\ index (rsi st) 0 = NaN.
Proof.
  cbn zeta. unfold calculateRSI_run.
  set (st0 := mkRsi _ _ _ _ _).
  assert (H0 : len (rsi st0) = 1 /\ index (rsi st0) 0 = NaN) by (split; reflexivity).
  destruct (Z.le_gt_cases (period + 1) (len data)) as [Hle|Hgt].
  - apply (for_loop_ind
             (fun i st => len (rsi st) = 1 + Z.max 0 (i - (period + 1))
                          /\ index (rsi st) 0 = NaN)); trivial.
    + destruct H0 as [-> ?]. split; [lia|assumption].
    + intros i st Hi [Hl Hz]. rewrite rsi_step_rsi, len_app, Hl.
      split; [change (len [?v]) with 1; lia|].
      rewrite index_app_l by lia. exact Hz.
  - rewrite for_loop_nil by lia. destruct H0 as [-> ?]. split; [lia|assumption].
Qed.

(** C3, as the code has it. [calculateRSI s p] always starts with NaN and has
    length [max 1 (len s - p)]: exactly [len s - p] when [len s > p], and
    the single NaN when the series is not longer than the period. *)
Theorem calculateRSI_length (s : list number) (p : Z) :
  len (calculateRSI s p) = Z.max 1 (len s - p)
  /\ index (calculateRSI s p) 0 = NaN.
Proof.
  destruct (calculateRSI_run_shape s p) as [Hl Hz].
  unfold calculateRSI. rewrite Hl. split; [lia|exact Hz].
Qed.

(** C3 as stated fails on a series that is not longer than the period: three
    points with period 3 give one entry, not [3 - 3 = 0]. *)
Lemma calculateRSI_length_short :
  1 <= 3
  /\ len (calculateRSI [1; 2; 3]%float 3) = 1
  /\ len (calculateRSI [1; 2; 3]%float 3) <> len [1; 2; 3]%float - 3.
Proof. split; [lia|]. split; [reflexivity | vm_compute; discriminate]. Qed.

(** C4, as the code has it. Every iteration pushes the division formula
    [100 - 100 / (1 + avgGain / avgLoss)], with no case on [avgLoss].  When
    the smoothed [avgLoss] is zero the formula gives exactly 100 if the
    smoothed [avgGain] is positive, and NaN if it is zero too. *)
Theorem rsi_step_zero_loss (data : list number) (period i : Z) (st : rsi_state) :
  let st' := rsi_step data period i st in
  (avgLoss st' =? 0)%float = true ->
  rsi st' = rsi st ++ [(100 - 100 / (1 + avgGain st' / avgLoss st'))%float]
  /\ ((0 <? avgGain st')%float = true -> rsi st' = rsi st ++ [100%float])
  /\ ((avgGain st' =? 0)%float = true -> rsi st' = rsi st ++ [NaN]).
Proof.
  intros st' Hl. subst st'. rewrite rsi_step_rsi.
  split; [reflexivity|]. split; intros Hg; do 2 f_equal.
  - now apply rsi_formula_zero_loss.
  - now apply rsi_formula_zero_both.
Qed.

Lemma rsi_step_zero_loss_witness :
  (avgLoss (rsi_step [1; 2; 3]%float 1 2 (mkRsi [NaN] 1 0 1 0)%float) =? 0)%float
  = true
  /\ rsi (rsi_step [1; 2; 3]%float 1 2 (mkRsi [NaN] 1 0 1 0)%float)
     = [NaN; 100%float].
Proof.
  split; [reflexivity|].
  exact (proj1 (proj2 (rsi_step_zero_loss [1; 2; 3]%float 1 2
                         (mkRsi [NaN] 1 0 1 0)%float eq_refl)) eq_refl).
Defined.

(** C4 as stated fails on a flat series: the smoothed [avgLoss] is exactly
    zero at the step that produces index 1, and the value produced there is
    NaN, not 100. *)
Lemma calculateRSI_flat_not_100 :
  (avgLoss (calculateRSI_run [1; 1; 1]%float 1) =? 0)%float = true
  /\ calculateRSI [1; 1; 1]%float 1 = [NaN; NaN]
  /\ index (calculateRSI [1; 1; 1]%float 1) 1 <> 100%float.
Proof.
  split; [reflexivity|]. split; [reflexivity|].
  vm_compute. intros H. apply (f_equal is_nan) in H. vm_compute in H.
  discriminate.
Qed.

(** ** analyzeMACDSignal *)

Lemma index_app_plus a b k : 0 <= k -> index (a ++ b) (len a + k) = index b k.
Proof.
  intros H. unfold index, len.
  destruct (Z.ltb_spec (Z.of_nat (length a) + k) 0); [lia|].
  destruct (Z.ltb_spec k 0); [lia|].
  replace (Z.to_nat (Z.of_nat (length a) + k)) with (length a + Z.to_nat k)%nat
    by lia.
  apply app_nth2_plus.
Qed.

Lemma index_last l : 1 <= len l -> index l (len l - 1) = last_point l.
Proof.
  intros H. unfold last_point.
  assert (Hne : l <> []) by (intros ->; unfold len in H; simpl in H; lia).
  rewrite (app_removelast_last NaN Hne) at 1 2.
  rewrite len_app. change (len [?v]) with 1.
  replace (len (removelast l) + 1 - 1) with (len (removelast l)) by lia.
  apply index_app_r.
Qed.

Lemma index_previous l : 2 <= len l -> index l (len l - 2) = previous_point l.
Proof.
  intros H.
  assert (Hne : l <> []) by (intros ->; unfold len in H; simpl in H; lia).
  assert (Hl : len l = len (removelast l) + 1).
  { rewrite (app_removelast_last NaN Hne) at 1. now rewrite len_app. }
  rewrite (app_removelast_last NaN Hne) at 1.
  rewrite index_app_l by lia.
  replace (len l - 2) with (len (removelast l) - 1) by lia.
  unfold previous_point. apply index_last. lia.
Qed.

(** The result of [analyzeMACDSignal] once both lines have three points. *)
Lemma analyzeMACDSignal_cases macdLine signalLine histogram :
  3 <= len macdLine -> 3 <= len signalLine -> 1 <= len histogram ->
  analyzeMACDSignal macdLine signalLine histogram
  = if bullish_crossover macdLine signalLine then
      mkSignal bullish (crossover_strength (last_point histogram))
               "MACD bullish crossover"
    else if bearish_crossover macdLine signalLine then
      mkSignal bearish (crossover_strength (last_point histogram))
               "MACD bearish crossover"
    else mkSignal neutral 0%float "No clear MACD signal".
Proof.
  intros Hm Hs Hh. unfold analyzeMACDSignal.
  destruct (Z.ltb_spec (len macdLine) 3); [lia|].
  destruct (Z.ltb_spec (len signalLine) 3); [lia|].
  cbn [orb]. rewrite !index_last, !index_previous by lia. reflexivity.
Qed.

Lemma crossovers_exclusive macdLine signalLine :
  bullish_crossover macdLine signalLine = true ->
  bearish_crossover macdLine signalLine = false.
Proof.
  unfold bullish_crossover, bearish_crossover.
  intros [_ H]%andb_prop. rewrite (float_ltb_asym _ _ H). apply andb_false_r.
Qed.

(** C6. [analyzeMACDSignal] returns exactly the signal
    [{neutral, 0, "Insufficient data"}] if and only if [macdLine] or
    [signalLine] has fewer than 3 points. *)
Theorem analyzeMACDSignal_insufficient (macdLine signalLine histogram : list number) :
  analyzeMACDSignal macdLine signalLine histogram = insufficient_data
  <-> (len macdLine < 3 \/ len signalLine < 3).
Proof.
  unfold analyzeMACDSignal, insufficient_data.
  destruct (Z.ltb_spec (len macdLine) 3) as [Hm|Hm]; cbn [orb].
  - split; [left; assumption | reflexivity].
  - destruct (Z.ltb_spec (len signalLine) 3) as [Hs|Hs].
    + split; [right; assumption | reflexivity].
    + split; [|lia]. intros H. apply (f_equal description) in H.
      repeat match type of H with
             | context [if ?c then _ else _] => destruct c
             end; discriminate H.
Qed.

(** C7. For lines and histogram of at least three points each:
    the result is bullish exactly when the second-to-last macd value is [<=]
    the second-to-last signal value and the last macd value is [>] the last
    signal value; bearish exactly when the second-to-last macd value is [>=]
    the second-to-last signal value and the last macd value is [<] the last
    signal value; in both cases the strength is
    [min (|last histogram value| * 10) 100]; otherwise the result is neutral
    with strength 0.  The two crossover conditions exclude one another. *)
Theorem analyzeMACDSignal_crossover (macdLine signalLine histogram : list number) :
  3 <= len macdLine -> 3 <= len signalLine -> 3 <= len histogram ->
  let r := analyzeMACDSignal macdLine signalLine histogram in
  (type r = bullish <-> bullish_crossover macdLine signalLine = true)
  /\ (type r = bearish <-> bearish_crossover macdLine signalLine = true)
  /\ (type r = neutral <->
      bullish_crossover macdLine signalLine = false
      /\ bearish_crossover macdLine signalLine = false)
  /\ (type r = bullish \/ type r = bearish ->
      strength r = crossover_strength (last_point histogram))
  /\ (type r = neutral -> strength r = 0%float)
  /\ ~ (bullish_crossover macdLine signalLine = true
        /\ bearish_crossover macdLine signalLine = true).
Proof.
  intros Hm Hs Hh r. subst r.
  rewrite analyzeMACDSignal_cases by lia.
  pose proof (crossovers_exclusive macdLine signalLine) as Hx.
  destruct (bullish_crossover macdLine signalLine);
    destruct (bearish_crossover macdLine signalLine); cbn [type strength];
    try (specialize (Hx eq_refl); discriminate Hx);
    repeat split; try discriminate; try tauto; try reflexivity;
    try (intros [? ?]; discriminate);
    try (intros [?|?]; discriminate).
Qed.

Lemma analyzeMACDSignal_crossover_witness :
  3 <= len [0; -1; 1]%float /\ 3 <= len [0; 0; 0]%float
  /\ 3 <= len [0; 0; 5]%float
  /\ (type (analyzeMACDSignal [0; -1; 1]%float [0; 0; 0]%float [0; 0; 5]%float)
      = bullish
      <-> bullish_crossover [0; -1; 1]%float [0; 0; 0]%float = true).
Proof.
  repeat (split; [vm_compute; discriminate|]).
  exact (proj1 (analyzeMACDSignal_crossover
                  [0; -1; 1]%float [0; 0; 0]%float [0; 0; 5]%float
                  ltac:(vm_compute; discriminate)
                  ltac:(vm_compute; discriminate)
                  ltac:(vm_compute; discriminate))).
Defined.

(** C5, as the code has it. Once both lines have a third, earlier point,
    a macd line ending in [-1, 1], a signal line ending in [0, 0] and a
    histogram ending in 5 give a bullish signal of strength
    [min (5 * 10) 100 = 50]. *)
Theorem analyzeMACDSignal_bullish_50 (m s h : list number) :
  m <> [] -> s <> [] ->
  analyzeMACDSignal (m ++ [-1; 1]%float) (s ++ [0; 0]%float) (h ++ [5]%float)
  = mkSignal bullish 50%float "MACD bullish crossover".
Proof.
  intros Hm Hs. unfold analyzeMACDSignal.
  assert (Lm : 1 <= len m) by (destruct m; [congruence | unfold len; simpl; lia]).
  assert (Ls : 1 <= len s) by (destruct s; [congruence | unfold len; simpl; lia]).
  rewrite !len_app. change (len [?a; ?b]) with 2. change (len [?a]) with 1.
  destruct (Z.ltb_spec (len m + 2) 3); [lia|].
  destruct (Z.ltb_spec (len s + 2) 3); [lia|].
  cbn [orb].
  replace (len m + 2 - 1) with (len m + 1) by lia.
  replace (len m + 2 - 2) with (len m + 0) by lia.
  replace (len s + 2 - 1) with (len s + 1) by lia.
  replace (len s + 2 - 2) with (len s + 0) by lia.
  replace (len h + 1 - 1) with (len h + 0) by lia.
  rewrite !index_app_plus by lia. reflexivity.
Qed.

Lemma analyzeMACDSignal_bullish_50_witness :
  [0%float] <> [] /\ [0%float] <> []
  /\ analyzeMACDSignal ([0] ++ [-1; 1])%float ([0] ++ [0; 0])%float
                       ([] ++ [5])%float
     = mkSignal bullish 50%float "MACD bullish crossover".
Proof.
  split; [discriminate|]. split; [discriminate|].
  apply (analyzeMACDSignal_bullish_50 [0%float] [0%float] []); discriminate.
Defined.

(** C5 as stated fails: the two-point lines of the claim are stopped by the
    three-point guard, whatever the histogram. *)
Lemma analyzeMACDSignal_two_points :
  analyzeMACDSignal [-1; 1]%float [0; 0]%float [0; 3; 5]%float
  = mkSignal neutral 0%float "Insufficient data"
  /\ type (analyzeMACDSignal [-1; 1]%float [0; 0]%float [0; 3; 5]%float)
     <> bullish.
Proof. split; [reflexivity | vm_compute; discriminate]. Qed.

(** ** calculateMACD *)

Example macd_sample :
  calculateMACD [1; 2; 3; 4]%float 1 2 2
  = mkMACD [NaN; 0.5; 0.5; 0.5]%float [NaN; 0.5; 0.5]%float
           [NaN; NaN; 0; 0]%float.
Proof. reflexivity. Qed.

Lemma macd_line_map data fastEMA slowEMA :
  macd_line data fastEMA slowEMA
  = map (macd_at fastEMA slowEMA) (zrange 0 (len data)).
Proof.
  unfold macd_line.
  rewrite for_loop_push with (f := macd_at fastEMA slowEMA); [reflexivity|].
  intros i a _. unfold macd_at.
  now destruct (isNaN (index fastEMA i) || isNaN (index slowEMA i)).
Qed.

Lemma macd_line_len data fastEMA slowEMA :
  len (macd_line data fastEMA slowEMA) = len data.
Proof.
  rewrite macd_line_map, len_map_zrange. pose proof (len_nonneg data). lia.
Qed.

Lemma firstn_succ (l : list number) n :
  (n < length l)%nat -> firstn (S n) l = firstn n l ++ [nth n l NaN].
Proof.
  revert n. induction l as [|x l IH]; intros n H; simpl in H; [lia|].
  destruct n as [|n]; [reflexivity|].
  cbn [firstn nth app]. f_equal. apply IH. lia.
Qed.

Lemma count_defined_app a b :
  count_defined (a ++ b) = count_defined a + count_defined b.
Proof. unfold count_defined. now rewrite filter_app, len_app. Qed.

Lemma count_defined_nonneg l : 0 <= count_defined l.
Proof. apply len_nonneg. Qed.

Lemma rank_defined_le l i : rank_defined l i <= count_defined l.
Proof.
  unfold rank_defined.
  rewrite <- (firstn_skipn (Z.to_nat i) l) at 2.
  rewrite count_defined_app.
  pose proof (count_defined_nonneg (skipn (Z.to_nat i) l)). lia.
Qed.

Lemma rank_defined_succ l i :
  0 <= i < len l ->
  rank_defined l (i + 1)
  = rank_defined l i + (if isNaN (index l i) then 0 else 1).
Proof.
  intros H. unfold rank_defined, len in *.
  replace (Z.to_nat (i + 1)) with (S (Z.to_nat i)) by lia.
  rewrite firstn_succ by lia. rewrite count_defined_app. f_equal.
  unfold index. destruct (Z.ltb_spec i 0); [lia|].
  unfold count_defined, defined. cbn [filter].
  now destruct (isNaN (nth (Z.to_nat i) l NaN)).
Qed.

(** The histogram loop: entry by entry, the position in the signal line is
    the number of defined macd values met so far, and it never runs past the
    end of a signal line that has one entry per defined macd value. *)
Lemma histogram_loop_inv macd signal :
  count_defined macd <= len signal ->
  let st := for_loop 0 (len macd) (histogram_step macd signal) ([], 0) in
  len (fst st) = len macd
  /\ forall j, 0 <= j < len macd ->
       index (fst st) j
       = if isNaN (index macd j) then NaN
         else (index macd j - index signal (rank_defined macd j))%float.
Proof.
  intros Hsig. cbn zeta.
  pose proof (len_nonneg macd) as Hn.
  assert (H : let st := for_loop 0 (len macd) (histogram_step macd signal) ([], 0) in
              len (fst st) = len macd
              /\ snd st = rank_defined macd (len macd)
              /\ forall j, 0 <= j < len macd ->
                   index (fst st) j
                   = if isNaN (index macd j) then NaN
                     else (index macd j - index signal (rank_defined macd j))%float).
  { apply (for_loop_ind
             (fun i st =>
                len (fst st) = i
                /\ snd st = rank_defined macd i
                /\ forall j, 0 <= j < i ->
                     index (fst st) j
                     = if isNaN (index macd j) then NaN
                       else (index macd j
                             - index signal (rank_defined macd j))%float));
      [assumption | |].
    - repeat split. intros j Hj. lia.
    - intros i [h si] Hi (Hl & Hs & Hv). cbn [fst snd] in *.
      pose proof (rank_defined_succ macd i Hi) as Hr.
      pose proof (rank_defined_le macd (i + 1)) as Hle.
      unfold histogram_step. cbn [fst snd].
      destruct (isNaN (index macd i)) eqn:En; cbn [fst snd].
      + split; [rewrite len_app, Hl; reflexivity|].
        split; [lia|].
        intros j Hj. destruct (Z.eq_dec j i) as [->|Hne].
        * rewrite (index_app_end _ _ _ Hl), En. reflexivity.
        * rewrite index_app_l by lia. apply Hv. lia.
      + destruct (Z.ltb_spec si (len signal)) as [Hlt|Hge]; [|lia].
        cbn [fst snd].
        split; [rewrite len_app, Hl; reflexivity|].
        split; [lia|].
        intros j Hj. destruct (Z.eq_dec j i) as [->|Hne].
        * rewrite (index_app_end _ _ _ Hl), En, Hs. reflexivity.
        * rewrite index_app_l by lia. apply Hv. lia. }
  cbn zeta in H. destruct H as (H1 & _ & H3). split; assumption.
Qed.

Lemma signal_covers_macd macd signalPeriod :
  count_defined macd
  <= len (calculateEMA (filter (fun val => negb (isNaN val)) macd) signalPeriod).
Proof.
  rewrite calculateEMA_len. unfold count_defined, defined. lia.
Qed.

Lemma float_sub_nan (x : number) : (x - NaN)%float = NaN.
Proof.
  apply Prim2SF_inj. rewrite sub_spec.
  change (Prim2SF NaN) with S754_nan.
  now destruct (Prim2SF x) as [s|s| |s m e].
Qed.

(** Every index before [period - 1] of an EMA holds NaN, whatever the length
    of the input. *)
Lemma calculateEMA_warmup data period j :
  0 <= j < period - 1 -> index (calculateEMA data period) j = NaN.
Proof.
  intros Hj. destruct (Z.le_gt_cases period (len data)) as [Hle|Hgt].
  - now apply calculateEMA_values; [lia|].
  - unfold calculateEMA. rewrite ema_seed_spec. cbn [fst snd].
    destruct (Z.leb_spec period (len data)); [lia|].
    cbn [JSArray.elems]. apply index_repeat_NaN.
Qed.

(** C1, as the code has it. At every index [i] of the series: where the macd
    line is NaN the histogram is NaN; where the macd line is defined, the
    number [k] of defined macd values before [i] is a position of the signal
    line ([0 <= k < len signal], so the signal line always has an entry [k])
    and the histogram is [macd[i] - signal[k]]; and that is NaN throughout
    the warm-up of the signal line, that is while [k < signalPeriod - 1]. *)
Theorem calculateMACD_histogram (s : list number)
        (fastPeriod slowPeriod signalPeriod i : Z) :
  0 <= i < len s ->
  let r := calculateMACD s fastPeriod slowPeriod signalPeriod in
  (isNaN (index (macd r) i) = true -> index (histogram r) i = NaN)
  /\ (isNaN (index (macd r) i) = false ->
      0 <= rank_defined (macd r) i < len (signal r)
      /\ index (histogram r) i
         = (index (macd r) i - index (signal r) (rank_defined (macd r) i))%float)
  /\ (isNaN (index (macd r) i) = false ->
      rank_defined (macd r) i < signalPeriod - 1 ->
      index (histogram r) i = NaN).
Proof.
  intros Hi r. subst r. unfold calculateMACD. cbn [macd signal histogram].
  set (m := macd_line s _ _).
  set (sg := calculateEMA _ signalPeriod).
  pose proof (signal_covers_macd m signalPeriod) as Hcov. fold sg in Hcov.
  destruct (histogram_loop_inv m sg Hcov) as [_ Hv].
  assert (Him : 0 <= i < len m) by (subst m; now rewrite macd_line_len).
  specialize (Hv i Him).
  assert (Hk : 0 <= rank_defined m i)
    by (unfold rank_defined; apply count_defined_nonneg).
  split; [|split].
  - intros E. now rewrite Hv, E.
  - intros E. split; [|now rewrite Hv, E].
    pose proof (rank_defined_succ m i Him) as Hs. rewrite E in Hs.
    pose proof (rank_defined_le m (i + 1)). lia.
  - intros E Hr. rewrite Hv, E. subst sg.
    rewrite calculateEMA_warmup.
    + apply float_sub_nan.
    + split; assumption.
Qed.

Lemma calculateMACD_histogram_witness :
  0 <= 1 < len [1; 2; 3; 4]%float
  /\ (0 <= rank_defined (macd (calculateMACD [1; 2; 3; 4]%float 1 2 2)) 1
           < len (signal (calculateMACD [1; 2; 3; 4]%float 1 2 2))
      /\ index (histogram (calculateMACD [1; 2; 3; 4]%float 1 2 2)) 1
         = (index (macd (calculateMACD [1; 2; 3; 4]%float 1 2 2)) 1
            - index (signal (calculateMACD [1; 2; 3; 4]%float 1 2 2))
                    (rank_defined (macd (calculateMACD [1; 2; 3; 4]%float 1 2 2)) 1))%float).
Proof.
  split; [cbv [len length]; lia|].
  exact (proj1 (proj2 (calculateMACD_histogram [1; 2; 3; 4]%float 1 2 2 1
                         ltac:(cbv [len length]; lia)))
               eq_refl).
Defined.

(** C1 as stated fails inside the warm-up of the signal line: at index 1
    the macd line is defined and the histogram is NaN. *)
Lemma calculateMACD_histogram_warmup :
  index (macd (calculateMACD [1; 2; 3; 4]%float 1 2 2)) 1 = 0.5%float
  /\ isNaN (index (macd (calculateMACD [1; 2; 3; 4]%float 1 2 2)) 1) = false
  /\ isNaN (index (histogram (calculateMACD [1; 2; 3; 4]%float 1 2 2)) 1) = true.
Proof. repeat split. Qed.

(** ** calculateBollingerBands and calculateATR *)

Lemma calculateBollingerBands_map data period stdDev :
  calculateBollingerBands data period stdDev
  = mkBands (map (upper_at data period stdDev) (zrange 0 (len data)))
            (map (middle_at data period) (zrange 0 (len data)))
            (map (lower_at data period stdDev) (zrange 0 (len data))).
Proof.
  unfold calculateBollingerBands.
  apply (for_loop_ind
           (fun i b =>
              b = mkBands (map (upper_at data period stdDev) (zrange 0 i))
                          (map (middle_at data period) (zrange 0 i))
                          (map (lower_at data period stdDev) (zrange 0 i))));
    [apply len_nonneg | reflexivity |].
  intros i b Hi ->. cbn [upper middle lower].
  rewrite zrange_snoc, !map_app by lia. cbn [map].
  destruct (i <? period - 1) eqn:E; cbn [upper middle lower];
    f_equal; apply (f_equal (app _)); apply (f_equal (fun x => [x]));
    unfold upper_at, middle_at, lower_at, sd_at; now rewrite E.
Qed.

Lemma trueRange_len data : len (trueRange data) = Z.of_nat (length data).
Proof.
  unfold trueRange.
  apply (for_loop_ind (fun i tr => len tr = i)); [lia | reflexivity |].
  intros i tr Hi Hl.
  destruct (i =? 0); rewrite len_app, Hl; reflexivity.
Qed.

(** C2, as the code has it. For every period parameter the macd line and
    the histogram have the length of the input; the signal line, the EMA of
    the defined macd values only, has one entry per defined macd value when
    [signalPeriod >= 0]; the series returned by [calculateSMA] and
    [calculateBollingerBands] have the length of their source for every
    period; and those returned by [calculateEMA] and [calculateATR] do for
    every period that is not negative. *)
Theorem series_lengths (s : list number) (candles : list CandleData)
        (fastPeriod slowPeriod signalPeriod p : Z) (stdDev : number) :
  len (macd (calculateMACD s fastPeriod slowPeriod signalPeriod)) = len s
  /\ len (histogram (calculateMACD s fastPeriod slowPeriod signalPeriod)) = len s
  /\ (0 <= signalPeriod ->
      len (signal (calculateMACD s fastPeriod slowPeriod signalPeriod))
      = count_defined (macd (calculateMACD s fastPeriod slowPeriod signalPeriod)))
  /\ len (calculateSMA s p) = len s
  /\ (0 <= p -> len (calculateEMA s p) = len s)
  /\ (len (upper (calculateBollingerBands s p stdDev)) = len s
      /\ len (middle (calculateBollingerBands s p stdDev)) = len s
      /\ len (lower (calculateBollingerBands s p stdDev)) = len s)
  /\ (0 <= p -> len (calculateATR candles p) = Z.of_nat (length candles)).
Proof.
  pose proof (len_nonneg s) as Hn.
  unfold calculateMACD. cbn [macd signal histogram].
  set (m := macd_line s _ _).
  set (sg := calculateEMA _ signalPeriod).
  destruct (histogram_loop_inv m sg (signal_covers_macd m signalPeriod))
    as [Hl _].
  assert (Hm : len m = len s) by (subst m; apply macd_line_len).
  split; [exact Hm|]. split; [now rewrite Hl|].
  split; [intros Hsig; subst sg; now rewrite calculateEMA_len_nonneg|].
  split; [apply calculateSMA_len|].
  split; [intros Hp; now apply calculateEMA_len_nonneg|].
  split.
  - rewrite calculateBollingerBands_map. cbn [upper middle lower].
    rewrite !len_map_zrange. lia.
  - intros Hp. unfold calculateATR.
    rewrite calculateEMA_len_nonneg by assumption.
    apply trueRange_len.
Qed.

Lemma series_lengths_witness :
  0 <= 1
  /\ len (signal (calculateMACD [1; 2; 3]%float 1 2 1))
     = count_defined (macd (calculateMACD [1; 2; 3]%float 1 2 1)).
Proof.
  split; [lia|].
  exact (proj1 (proj2 (proj2 (series_lengths [1; 2; 3]%float [] 1 2 1 2 2%float)))
               ltac:(lia)).
Defined.

(** C2 as stated fails for the signal line: with one macd value lost to the
    warm-up of the slow EMA, the signal line of a three-point series has
    two entries. *)
Lemma calculateMACD_signal_shorter :
  signal (calculateMACD [1; 2; 3]%float 1 2 1) = [0.5; 0.5]%float
  /\ len (signal (calculateMACD [1; 2; 3]%float 1 2 1)) <> len [1; 2; 3]%float.
Proof. split; [reflexivity | vm_compute; discriminate]. Qed.

Lemma middle_at_sma data period i :
  0 <= i < len data -> middle_at data period i = sma_at data period i.
Proof.
  intros H. unfold middle_at. rewrite calculateSMA_index by assumption.
  unfold sma_at. now destruct (i <? period - 1).
Qed.

Lemma sd_at_population data period i :
  0 <= i < len data -> period - 1 <= i ->
  sd_at data period i
  = population_sd data i period (index (calculateSMA data period) i).
Proof.
  intros Hi Hp. unfold sd_at, standardDeviation, population_sd, reduce.
  rewrite slice_window by lia. rewrite map_map. reflexivity.
Qed.

(** C10, as the code has it. The middle band is [calculateSMA s p], entry
    for entry; all three bands are NaN at every index [i < p - 1]; and at
    every index [i >= p - 1] the upper and lower bands are the middle band
    plus and minus one and the same deviation term [sd * m], where [sd] is
    the population standard deviation of the trailing window (squared
    differences summed and divided by [p]). *)
Theorem calculateBollingerBands_spec (s : list number) (p : Z) (m : number) :
  middle (calculateBollingerBands s p m) = calculateSMA s p
  /\ (forall i, 0 <= i < len s -> i < p - 1 ->
        index (upper (calculateBollingerBands s p m)) i = NaN
        /\ index (middle (calculateBollingerBands s p m)) i = NaN
        /\ index (lower (calculateBollingerBands s p m)) i = NaN)
  /\ (forall i, 0 <= i < len s -> p - 1 <= i ->
        let mean := index (middle (calculateBollingerBands s p m)) i in
        let sd := population_sd s i p mean in
        index (upper (calculateBollingerBands s p m)) i = (mean + sd * m)%float
        /\ index (lower (calculateBollingerBands s p m)) i
           = (mean - sd * m)%float).
Proof.
  rewrite calculateBollingerBands_map. cbn [upper middle lower].
  split; [|split].
  - rewrite calculateSMA_map. apply map_ext_in. intros i Hin.
    apply middle_at_sma. unfold zrange in Hin.
    apply in_map_iff in Hin as (k & <- & Hk). apply in_seq in Hk. lia.
  - intros i Hi Hlt. rewrite !index_map_zrange by lia.
    unfold upper_at, middle_at, lower_at. cbn [Z.add].
    destruct (Z.ltb_spec i (p - 1)); [|lia]. repeat split.
  - intros i Hi Hge. cbn zeta. rewrite !index_map_zrange by lia.
    unfold upper_at, middle_at, lower_at. cbn [Z.add].
    destruct (Z.ltb_spec i (p - 1)); [lia|].
    rewrite sd_at_population by lia. split; reflexivity.
Qed.

(** C10 as stated fails on band symmetry: for the prices 1 to 5 with period
    5 and multiplier 2 all three bands are defined at index 4, and the
    rounded differences [upper - middle] and [middle - lower] are not
    equal. *)
Lemma bollinger_bands_asymmetric :
  index (upper (calculateBollingerBands [1; 2; 3; 4; 5]%float 5 2%float)) 4
  = 0x1.7504f333f9de6p+2%float
  /\ index (middle (calculateBollingerBands [1; 2; 3; 4; 5]%float 5 2%float)) 4
     = 3%float
  /\ index (lower (calculateBollingerBands [1; 2; 3; 4; 5]%float 5 2%float)) 4
     = 0x1.5f619980c4330p-3%float
  /\ ((0x1.7504f333f9de6p+2 - 3) =? (3 - 0x1.5f619980c4330p-3))%float = false.
Proof. repeat split. Qed.

(** ** Further properties of the indicators *)

Lemma zrange_app lo mid hi :
  lo <= mid <= hi -> zrange lo hi = zrange lo mid ++ zrange mid hi.
Proof.
  intros H.
  assert (Hn : forall n, zrange lo (mid + Z.of_nat n)
                         = zrange lo mid ++ zrange mid (mid + Z.of_nat n)).
  { induction n as [|n IH].
    - rewrite Z.add_0_r, (zrange_nil mid mid), app_nil_r by lia. reflexivity.
    - replace (mid + Z.of_nat (S n)) with (mid + Z.of_nat n + 1) by lia.
      rewrite !zrange_snoc, IH, app_assoc by lia. reflexivity. }
  specialize (Hn (Z.to_nat (hi - mid))).
  now replace (mid + Z.of_nat (Z.to_nat (hi - mid))) with hi in Hn by lia.
Qed.

Lemma float_nan_sub (x : number) : (NaN - x)%float = NaN.
Proof. apply Prim2SF_inj. rewrite sub_spec. reflexivity. Qed.

Lemma float_nan_mul (x : number) : (NaN * x)%float = NaN.
Proof. apply Prim2SF_inj. rewrite mul_spec. reflexivity. Qed.

Lemma float_nan_add (x : number) : (NaN + x)%float = NaN.
Proof. apply Prim2SF_inj. rewrite add_spec. reflexivity. Qed.

Lemma float_add_nan (x : number) : (x + NaN)%float = NaN.
Proof. rewrite float_add_comm. apply float_nan_add. Qed.

Lemma float_nan_div (x : number) : (NaN / x)%float = NaN.
Proof. apply Prim2SF_inj. rewrite div_spec. reflexivity. Qed.

Lemma float_div_nan (x : number) : (x / NaN)%float = NaN.
Proof.
  apply Prim2SF_inj. rewrite div_spec. change (Prim2SF NaN) with S754_nan.
  now destruct (Prim2SF x).
Qed.

(** An EMA step yields NaN as soon as the input or the previous entry is
    NaN. *)
Lemma ema_value_nan (d prev mult : number) :
  d = NaN \/ prev = NaN -> ((d - prev) * mult + prev)%float = NaN.
Proof.
  intros [-> | ->].
  - now rewrite float_nan_sub, float_nan_mul, float_nan_add.
  - apply float_add_nan.
Qed.

Lemma calculateEMA_too_short data period :
  len data < period -> calculateEMA data period = repeat NaN (length data).
Proof.
  intros H. unfold calculateEMA. rewrite ema_seed_spec. cbn [fst snd].
  destruct (Z.leb_spec period (len data)); [lia|].
  cbn [JSArray.elems]. rewrite Z.min_r by lia. unfold len.
  now rewrite Nat2Z.id.
Qed.

(** X1. An input shorter than the period gives an all-NaN series of the
    input's length. *)
Theorem calculateEMA_short (data : list number) (period : Z) :
  len data < period ->
  len (calculateEMA data period) = len data
  /\ forall j, index (calculateEMA data period) j = NaN.
Proof.
  intros H. rewrite calculateEMA_too_short by assumption. split.
  - now rewrite len_repeat.
  - intros j. apply index_repeat_NaN.
Qed.

Lemma calculateEMA_short_witness :
  len [1; 2]%float < 3 /\ len (calculateEMA [1; 2]%float 3) = len [1; 2]%float.
Proof.
  split; [cbv [len length]; lia|].
  apply (calculateEMA_short [1; 2]%float 3). cbv [len length]; lia.
Defined.

Lemma lookup_single k k' v :
  JSArray.lookup k [(k', v)] = if k' =? k then Some v else None.
Proof. unfold JSArray.lookup. cbn. now destruct (k' =? k). Qed.

Lemma calculateEMA_period_le_0 data period :
  period <= 0 ->
  calculateEMA data period = repeat NaN (Z.to_nat (len data - period)).
Proof.
  intros Hp. pose proof (len_nonneg data) as Hn.
  unfold calculateEMA. rewrite ema_seed_spec. cbn [fst snd].
  destruct (Z.leb_spec period (len data)); [|lia].
  rewrite Z.min_l by lia.
  replace (Z.to_nat period) with 0%nat by lia. cbn [repeat].
  rewrite sum_range_nil by lia.
  unfold JSArray.set. destruct (Z.ltb_spec (period - 1) 0); [|lia].
  cbn [JSArray.elems JSArray.props].
  set (first := (0 / of_int period)%float).
  set (mult := (2 / (of_int period + 1))%float).
  assert (Hfirst : period = 0 -> first = NaN) by (intros ->; reflexivity).
  enough (Hinv :
            for_loop period (len data) (ema_next mult data)
                     (JSArray.mk [] [(period - 1, first)])
            = JSArray.mk (repeat NaN (Z.to_nat (len data - period)))
                         [(period - 1, first)])
    by (apply (f_equal JSArray.elems) in Hinv; exact Hinv).
  apply (for_loop_ind
           (fun i st => st = JSArray.mk (repeat NaN (Z.to_nat (i - period)))
                                        [(period - 1, first)]));
    [lia | now rewrite Z.sub_diag |].
  intros i st Hi ->. unfold ema_next, JSArray.push.
  cbn [JSArray.elems JSArray.props].
  replace (Z.to_nat (i + 1 - period)) with (S (Z.to_nat (i - period))) by lia.
  cbn [repeat]. rewrite repeat_cons. do 3 f_equal.
  apply ema_value_nan.
  destruct (Z.ltb_spec i 0) as [Hneg|Hpos].
  - left. unfold index. now destruct (Z.ltb_spec i 0); [|lia].
  - right. unfold JSArray.get. cbn [JSArray.elems JSArray.props].
    destruct (Z.ltb_spec (i - 1) 0) as [Hlow|Hlow].
    + rewrite lookup_single.
      destruct (Z.eqb_spec (period - 1) (i - 1)) as [E|E]; [|reflexivity].
      apply Hfirst. lia.
    + apply index_repeat_NaN.
Qed.

(** X2. With a period of zero or below no entry is ever defined: the
    result holds [len data - period] entries, all NaN. *)
Theorem calculateEMA_nonpositive_period (data : list number) (period : Z) :
  period <= 0 ->
  len (calculateEMA data period) = len data - period
  /\ forall j, index (calculateEMA data period) j = NaN.
Proof.
  intros H. pose proof (len_nonneg data).
  rewrite calculateEMA_period_le_0 by assumption. split.
  - rewrite len_repeat. lia.
  - intros j. apply index_repeat_NaN.
Qed.

Lemma calculateEMA_nonpositive_period_witness :
  -1 <= 0 /\ len (calculateEMA [1; 2; 3]%float (-1)) = len [1; 2; 3]%float - -1.
Proof.
  split; [lia|].
  apply (calculateEMA_nonpositive_period [1; 2; 3]%float (-1)). lia.
Defined.

Lemma macd_line_index data fastEMA slowEMA i :
  0 <= i < len data ->
  index (macd_line data fastEMA slowEMA) i = macd_at fastEMA slowEMA i.
Proof.
  intros H. rewrite macd_line_map, index_map_zrange by lia. reflexivity.
Qed.

Lemma macd_at_warmup data fastPeriod slowPeriod i :
  0 <= i < Z.max fastPeriod slowPeriod - 1 ->
  macd_at (calculateEMA data fastPeriod) (calculateEMA data slowPeriod) i = NaN.
Proof.
  intros H. unfold macd_at.
  destruct (Z.max_spec fastPeriod slowPeriod) as [[_ E]|[_ E]].
  - rewrite (calculateEMA_warmup data slowPeriod) by lia.
    now rewrite orb_true_r.
  - now rewrite (calculateEMA_warmup data fastPeriod) by lia.
Qed.

(** X3. Before index [max fastPeriod slowPeriod - 1], that is while the
    slower of the two EMAs is still warming up, the macd line and the
    histogram are NaN. *)
Theorem calculateMACD_warmup (s : list number)
        (fastPeriod slowPeriod signalPeriod i : Z) :
  0 <= i < len s -> i < Z.max fastPeriod slowPeriod - 1 ->
  index (macd (calculateMACD s fastPeriod slowPeriod signalPeriod)) i = NaN
  /\ index (histogram (calculateMACD s fastPeriod slowPeriod signalPeriod)) i
     = NaN.
Proof.
  intros Hi Hw. unfold calculateMACD. cbn [macd histogram].
  set (m := macd_line s _ _).
  set (sg := calculateEMA _ signalPeriod).
  assert (Hm : index m i = NaN).
  { subst m. rewrite macd_line_index by assumption.
    apply macd_at_warmup. lia. }
  split; [exact Hm|].
  destruct (histogram_loop_inv m sg (signal_covers_macd m signalPeriod))
    as [_ Hv].
  rewrite Hv by (subst m; now rewrite macd_line_len).
  now rewrite Hm.
Qed.

Lemma calculateMACD_warmup_witness :
  0 <= 0 < len [1; 2; 3; 4]%float /\ 0 < Z.max 1 2 - 1
  /\ index (macd (calculateMACD [1; 2; 3; 4]%float 1 2 2)) 0 = NaN.
Proof.
  split; [cbv [len length]; lia|]. split; [lia|].
  apply (calculateMACD_warmup [1; 2; 3; 4]%float 1 2 2 0);
    [cbv [len length]; lia | lia].
Defined.

Lemma count_defined_le_len l : count_defined l <= len l.
Proof.
  unfold count_defined, len. pose proof (filter_length_le defined l). lia.
Qed.

Lemma count_defined_all_nan (f : Z -> number) (l : list Z) :
  (forall i, In i l -> f i = NaN) -> count_defined (map f l) = 0.
Proof.
  intros H. induction l as [|x l IH]; [reflexivity|].
  unfold count_defined in *. cbn [map filter].
  rewrite (H x (or_introl eq_refl)). cbn.
  apply IH. intros i Hin. apply H. now right.
Qed.

Lemma In_zrange i lo hi : In i (zrange lo hi) -> lo <= i < hi.
Proof.
  unfold zrange. intros (k & <- & Hk)%in_map_iff. apply in_seq in Hk. lia.
Qed.

(** The macd line has no defined value inside the warm-up, so it has at
    most [len s - (max fastPeriod slowPeriod - 1)] of them. *)
Lemma macd_count_defined_bound s fastPeriod slowPeriod k :
  0 <= k <= len s -> k <= Z.max fastPeriod slowPeriod - 1 ->
  count_defined (macd_line s (calculateEMA s fastPeriod)
                           (calculateEMA s slowPeriod))
  <= len s - k.
Proof.
  intros Hk Hw. rewrite macd_line_map, (zrange_app 0 k (len s)) by lia.
  rewrite map_app, count_defined_app, count_defined_all_nan.
  - pose proof (count_defined_le_len
                  (map (macd_at (calculateEMA s fastPeriod)
                                (calculateEMA s slowPeriod))
                       (zrange k (len s)))) as Hle.
    rewrite len_map_zrange in Hle. lia.
  - intros i Hin%In_zrange. apply macd_at_warmup. lia.
Qed.

(** X4. The pipeline from prices to signal: a series of at most
    [max fastPeriod slowPeriod + 1] points leaves fewer than three defined
    macd values, hence fewer than three signal values, and
    [analyzeMACDSignal] reports insufficient data. *)
Theorem macd_pipeline_insufficient (s : list number)
        (fastPeriod slowPeriod signalPeriod : Z) :
  0 <= signalPeriod ->
  len s <= Z.max fastPeriod slowPeriod + 1 ->
  let r := calculateMACD s fastPeriod slowPeriod signalPeriod in
  len (signal r) < 3
  /\ analyzeMACDSignal (macd r) (signal r) (histogram r) = insufficient_data.
Proof.
  intros Hsig Hlen r. subst r. pose proof (len_nonneg s) as Hn.
  unfold calculateMACD. cbn [macd signal histogram].
  set (m := macd_line s _ _).
  assert (Hc : count_defined m < 3).
  { subst m. destruct (Z.le_gt_cases (Z.max fastPeriod slowPeriod - 1) 0).
    - pose proof (macd_count_defined_bound s fastPeriod slowPeriod 0
                    ltac:(lia)) as Hb.
      destruct (Z.le_gt_cases 0 (Z.max fastPeriod slowPeriod - 1)).
      + specialize (Hb ltac:(lia)). lia.
      + pose proof (count_defined_le_len
                      (macd_line s (calculateEMA s fastPeriod)
                                 (calculateEMA s slowPeriod))) as Hle.
        rewrite macd_line_len in Hle. lia.
    - destruct (Z.le_gt_cases (Z.max fastPeriod slowPeriod - 1) (len s)).
      + pose proof (macd_count_defined_bound s fastPeriod slowPeriod
                      (Z.max fastPeriod slowPeriod - 1)
                      ltac:(lia) ltac:(lia)). lia.
      + pose proof (macd_count_defined_bound s fastPeriod slowPeriod (len s)
                      ltac:(lia) ltac:(lia)). lia. }
  assert (Hs : len (calculateEMA (filter (fun val => negb (isNaN val)) m)
                                 signalPeriod) < 3).
  { rewrite calculateEMA_len_nonneg by assumption. exact Hc. }
  split; [exact Hs|].
  unfold analyzeMACDSignal, insufficient_data.
  destruct (Z.ltb_spec
              (len (calculateEMA (filter (fun val => negb (isNaN val)) m)
                                 signalPeriod)) 3); [|lia].
  now rewrite orb_true_r.
Qed.

Lemma macd_pipeline_insufficient_witness :
  0 <= 2 /\ len [1; 2; 3]%float <= Z.max 1 2 + 1
  /\ analyzeMACDSignal
       (macd (calculateMACD [1; 2; 3]%float 1 2 2))
       (signal (calculateMACD [1; 2; 3]%float 1 2 2))
       (histogram (calculateMACD [1; 2; 3]%float 1 2 2))
     = insufficient_data.
Proof.
  split; [lia|]. split; [cbv [len length]; lia|].
  apply (macd_pipeline_insufficient [1; 2; 3]%float 1 2 2);
    [lia | cbv [len length]; lia].
Defined.

Lemma rank_defined_all l : rank_defined l (len l) = count_defined l.
Proof.
  unfold rank_defined, len. now rewrite Nat2Z.id, firstn_all.
Qed.

(** X5. The three series agree at their ends: when the last macd value is
    defined, the last histogram value is the last macd value minus the last
    signal value, although the signal line is shorter than the other two. *)
Theorem calculateMACD_last_aligned (s : list number)
        (fastPeriod slowPeriod signalPeriod : Z) :
  0 <= signalPeriod ->
  let r := calculateMACD s fastPeriod slowPeriod signalPeriod in
  1 <= len s ->
  isNaN (last_point (macd r)) = false ->
  last_point (histogram r)
  = (last_point (macd r) - last_point (signal r))%float.
Proof.
  intros Hsig r Hlen. subst r. unfold calculateMACD. cbn [macd signal histogram].
  set (m := macd_line s _ _).
  set (sg := calculateEMA _ signalPeriod).
  assert (Hm : len m = len s) by (subst m; apply macd_line_len).
  destruct (histogram_loop_inv m sg (signal_covers_macd m signalPeriod))
    as [Hl Hv].
  rewrite Hm in Hl, Hv.
  rewrite <- (index_last m), Hm by lia. intros Hdef.
  rewrite <- (index_last (fst _)), Hl by lia.
  rewrite Hv, Hdef by lia.
  pose proof (rank_defined_succ m (len s - 1) ltac:(lia)) as Hr.
  rewrite Hdef in Hr.
  replace (len s - 1 + 1) with (len m) in Hr by lia.
  rewrite rank_defined_all in Hr.
  assert (Hsg : len sg = count_defined m).
  { subst sg. now rewrite calculateEMA_len_nonneg. }
  pose proof (count_defined_nonneg (firstn (Z.to_nat (len s - 1)) m)) as Hnn.
  fold (rank_defined m (len s - 1)) in Hnn.
  rewrite <- (index_last sg) by lia.
  do 2 f_equal. lia.
Qed.

Lemma calculateMACD_last_aligned_witness :
  0 <= 2 /\ 1 <= len [1; 2; 3; 4]%float
  /\ isNaN (last_point (macd (calculateMACD [1; 2; 3; 4]%float 1 2 2))) = false
  /\ last_point (histogram (calculateMACD [1; 2; 3; 4]%float 1 2 2))
     = (last_point (macd (calculateMACD [1; 2; 3; 4]%float 1 2 2))
        - last_point (signal (calculateMACD [1; 2; 3; 4]%float 1 2 2)))%float.
Proof.
  split; [lia|]. split; [cbv [len length]; lia|]. split; [reflexivity|].
  apply (calculateMACD_last_aligned [1; 2; 3; 4]%float 1 2 2);
    [lia | cbv [len length]; lia | reflexivity].
Defined.

(** ** More IEEE 754 facts *)

Lemma iter_pos_invariant {A} (P : A -> Prop) (f : A -> A) :
  (forall x, P x -> P (f x)) -> forall p x, P x -> P (iter_pos f p x).
Proof.
  intros Hf. induction p as [p IH|p IH|]; intros x Hx; cbn; auto.
Qed.

Lemma shr_1_nonneg mrs : 0 <= shr_m mrs -> 0 <= shr_m (shr_1 mrs).
Proof.
  destruct mrs as [m r s]. cbn. destruct m as [|[p|p|]|[p|p|]]; cbn; lia.
Qed.

Lemma shr_fexp_nonneg m e l :
  0 <= m -> 0 <= shr_m (fst (shr_fexp prec emax m e l)).
Proof.
  intros Hm. unfold shr_fexp, shr.
  assert (H0 : 0 <= shr_m (shr_record_of_loc m l))
    by (destruct l as [|[]]; exact Hm).
  destruct (fexp prec emax (Zdigits2 m + e) - e) as [|p|p]; cbn [fst];
    try exact H0.
  now apply (iter_pos_invariant (fun mrs => 0 <= shr_m mrs) shr_1 shr_1_nonneg).
Qed.

Lemma round_nearest_even_nonneg m l : 0 <= m -> 0 <= round_nearest_even m l.
Proof.
  intros H. destruct l as [|[]]; cbn; try lia. destruct (Z.even m); lia.
Qed.

(** Rounding a non-negative mantissa gives a number with the requested
    sign, never NaN. *)
Lemma binary_round_aux_sign sx mx ex lx :
  0 <= mx -> has_sign sx (binary_round_aux prec emax sx mx ex lx).
Proof.
  intros Hm. unfold binary_round_aux.
  pose proof (shr_fexp_nonneg mx ex lx Hm) as H1.
  destruct (shr_fexp prec emax mx ex lx) as [mrs' e']. cbn [fst] in H1.
  pose proof (shr_fexp_nonneg
                (round_nearest_even (shr_m mrs') (loc_of_shr_record mrs'))
                e' loc_Exact (round_nearest_even_nonneg _ _ H1)) as H2.
  destruct (shr_fexp prec emax _ e' loc_Exact) as [mrs'' e'']. cbn [fst] in H2.
  destruct (shr_m mrs'') as [|p|p]; [reflexivity | | lia].
  now destruct (e'' <=? emax - prec).
Qed.

Lemma has_sign_abs x : x <> S754_nan -> has_sign false (SFabs x).
Proof. destruct x; cbn; congruence. Qed.

Lemma has_sign_mul x y :
  has_sign false x -> has_sign false y ->
  SF64mul x y = S754_nan \/ has_sign false (SF64mul x y).
Proof.
  destruct x as [sx|sx| |sx mx ex], y as [sy|sy| |sy my ey]; cbn;
    intros Hx Hy; subst; try contradiction; auto.
  right. apply binary_round_aux_sign. lia.
Qed.

Lemma SFdiv_core_nonneg m1 e1 m2 e2 :
  0 <= fst (fst (SFdiv_core_binary prec emax (Zpos m1) e1 (Zpos m2) e2)).
Proof.
  unfold SFdiv_core_binary.
  set (s := _ - _ - Z.min _ _).
  set (m' := match s with Z0 => _ | Zpos _ => _ | Zneg _ => _ end).
  assert (Hm' : 0 <= m').
  { subst m'. destruct s; try lia. apply Z.shiftl_nonneg. lia. }
  pose proof (Z.div_eucl_eq m' (Zpos m2) ltac:(lia)) as Heq.
  pose proof (Z.mod_pos_bound m' (Zpos m2) ltac:(lia)) as Hmod.
  pose proof (Z.div_pos m' (Zpos m2) Hm' ltac:(lia)) as Hq.
  unfold Z.div in Hq.
  destruct (Z.div_eucl m' (Zpos m2)) as [q r]. cbn [fst]. exact Hq.
Qed.

Lemma has_sign_div x y :
  has_sign false x -> has_sign false y ->
  SF64div x y = S754_nan \/ has_sign false (SF64div x y).
Proof.
  destruct x as [sx|sx| |sx mx ex], y as [sy|sy| |sy my ey]; cbn;
    intros Hx Hy; subst; try contradiction; auto.
  right. pose proof (SFdiv_core_nonneg mx ex my ey) as Hq.
  destruct (SFdiv_core_binary prec emax (Zpos mx) ex (Zpos my) ey)
    as [[mz ez] lz]. cbn [fst] in Hq.
  now apply binary_round_aux_sign.
Qed.

Lemma is_nan_SF (x : number) :
  is_nan x = match Prim2SF x with S754_nan => true | _ => false end.
Proof.
  unfold is_nan. rewrite eqb_spec. unfold SFeqb.
  destruct (Prim2SF x) as [s|s| |s m e]; cbn; try reflexivity;
    try (now destruct s).
  rewrite Z.compare_refl, Pos.compare_cont_refl. now destruct s.
Qed.

Lemma is_finite_SF (x : number) :
  is_finite x
  = match Prim2SF x with
    | S754_zero _ | S754_finite _ _ _ => true
    | _ => false
    end.
Proof.
  unfold is_finite, is_infinity. rewrite is_nan_SF, eqb_spec, abs_spec.
  change (Prim2SF infinity) with (S754_infinity false).
  now destruct (Prim2SF x) as [s|s| |s m e].
Qed.

Lemma has_sign_not_neg (x : number) :
  has_sign false (Prim2SF x) -> (x <? 0)%float = false.
Proof.
  rewrite ltb_spec. change (Prim2SF 0) with (S754_zero false).
  destruct (Prim2SF x); cbn; intros H; subst; try reflexivity; contradiction.
Qed.

Lemma has_sign_nonneg (x : number) :
  has_sign false (Prim2SF x) -> (0 <=? x)%float = true.
Proof.
  rewrite leb_spec. change (Prim2SF 0) with (S754_zero false).
  destruct (Prim2SF x); cbn; intros H; subst; try reflexivity; contradiction.
Qed.

Lemma nan_not_neg (x : number) : is_nan x = true -> (x <? 0)%float = false.
Proof.
  rewrite is_nan_SF, ltb_spec. now destruct (Prim2SF x).
Qed.

Lemma abs_not_neg (x : number) : (abs x <? 0)%float = false.
Proof.
  rewrite ltb_spec, abs_spec. change (Prim2SF 0) with (S754_zero false).
  now destruct (Prim2SF x).
Qed.

Lemma float_ltb_leb (x y : number) :
  (x <? y)%float = true -> (x <=? y)%float = true.
Proof.
  rewrite ltb_spec, leb_spec. unfold SFltb, SFleb.
  now destruct (SFcompare (Prim2SF x) (Prim2SF y)) as [[]|].
Qed.

Lemma float_ltb_not_geb (x y : number) :
  (x <? y)%float = true -> (y <=? x)%float = false.
Proof.
  rewrite ltb_spec, leb_spec. unfold SFltb, SFleb.
  destruct (SFcompare (Prim2SF x) (Prim2SF y)) as [[]|] eqn:E;
    try discriminate.
  intros _. now rewrite (SFcompare_antisym _ _ E).
Qed.

Lemma SFcompare_antisym_gt x y :
  SFcompare x y = Some Gt -> SFcompare y x = Some Lt.
Proof.
  destruct x as [sx|sx| |sx mx ex], y as [sy|sy| |sy my ey]; simpl;
    try discriminate;
    try (destruct sx; discriminate || reflexivity);
    try (destruct sy; discriminate || reflexivity);
    try (destruct sx, sy; discriminate || reflexivity).
  assert (Hm : PosDef.Pos.compare_cont Eq my mx
               = CompOpp (PosDef.Pos.compare_cont Eq mx my))
    by (symmetry; apply (Pos.compare_cont_antisym mx my Eq)).
  rewrite (Z.compare_antisym ex ey), Hm.
  destruct sx, sy, (ex ?= ey), (PosDef.Pos.compare_cont Eq mx my);
    simpl; discriminate || reflexivity.
Qed.

Lemma float_leb_not_gtb (x y : number) :
  (x <=? y)%float = true -> (y <? x)%float = false.
Proof.
  rewrite ltb_spec, leb_spec. unfold SFltb, SFleb.
  destruct (SFcompare (Prim2SF y) (Prim2SF x)) as [[]|] eqn:E;
    try reflexivity.
  now rewrite (SFcompare_antisym _ _ E).
Qed.

(** Neither below nor above, and no NaN involved: [x <= y]. *)
Lemma float_not_ltb_leb (x y : number) :
  is_nan x = false -> is_nan y = false ->
  (y <? x)%float = false -> (x <=? y)%float = true.
Proof.
  rewrite !is_nan_SF, ltb_spec, leb_spec. unfold SFltb, SFleb.
  intros Hx Hy.
  destruct (SFcompare (Prim2SF x) (Prim2SF y)) as [[]|] eqn:E;
    try reflexivity.
  - now rewrite (SFcompare_antisym_gt _ _ E).
  - destruct (Prim2SF x), (Prim2SF y); discriminate.
Qed.

(** ** The strength of a signal *)

Lemma scaled_abs_sign (h : number) :
  is_nan h = false -> has_sign false (Prim2SF (abs h * 10)%float).
Proof.
  rewrite is_nan_SF. intros Hh.
  assert (Ha : has_sign false (SFabs (Prim2SF h)))
    by (apply has_sign_abs; intros E; now rewrite E in Hh).
  rewrite mul_spec, abs_spec.
  change (Prim2SF 10) with (S754_finite false 5629499534213120 (-49)).
  destruct (SFabs (Prim2SF h)) as [s|s| |s m e]; cbn in Ha; subst;
    try contradiction; try reflexivity.
  cbn [SF64mul SFmul xorb]. apply binary_round_aux_sign. lia.
Qed.

Lemma Math_min_100_range (a : number) :
  has_sign false (Prim2SF a) ->
  is_nan (Math_min a 100%float) = false
  /\ (0 <=? Math_min a 100%float)%float = true
  /\ (Math_min a 100%float <=? 100)%float = true.
Proof.
  intros Ha.
  assert (Hn : is_nan a = false)
    by (rewrite is_nan_SF; now destruct (Prim2SF a)).
  unfold Math_min, isNaN. rewrite Hn. cbn [orb].
  change (is_nan 100%float) with false. cbn [orb].
  destruct (a <? 100)%float eqn:E1.
  - split; [exact Hn|]. split; [now apply has_sign_nonneg|].
    now apply float_ltb_leb.
  - destruct (100 <? a)%float eqn:E2; [repeat split|].
    destruct (is_neg_zero a); [|repeat split].
    split; [exact Hn|]. split; [now apply has_sign_nonneg|].
    now apply float_not_ltb_leb.
Qed.

Lemma Math_min_nan_l (b : number) : Math_min NaN b = NaN.
Proof. reflexivity. Qed.

Lemma last_point_defined h :
  isNaN (last_point h) = false -> index h (len h - 1) = last_point h.
Proof.
  intros H. apply index_last. destruct h; [discriminate H|].
  unfold len. cbn [length]. lia.
Qed.

(** X6. The strength of the signal is a percentage: whenever it is a number
    it lies between 0 and 100, and it is a number whenever the last
    histogram value is one (it is NaN only for a crossover whose histogram
    is empty or ends in NaN). *)
Theorem analyzeMACDSignal_strength_range (macdLine signalLine histogram : list number) :
  (isNaN (strength (analyzeMACDSignal macdLine signalLine histogram)) = false ->
   (0 <=? strength (analyzeMACDSignal macdLine signalLine histogram))%float = true
   /\ (strength (analyzeMACDSignal macdLine signalLine histogram) <=? 100)%float
      = true)
  /\ (isNaN (last_point histogram) = false ->
      isNaN (strength (analyzeMACDSignal macdLine signalLine histogram)) = false).
Proof.
  unfold analyzeMACDSignal.
  set (ch := index histogram (len histogram - 1)).
  assert (Hs : isNaN (Math_min (Math_abs ch * 10)%float 100%float) = false ->
               (0 <=? Math_min (Math_abs ch * 10)%float 100%float)%float = true
               /\ (Math_min (Math_abs ch * 10)%float 100%float <=? 100)%float
                  = true).
  { intros Hn. destruct (is_nan ch) eqn:Ec.
    - rewrite is_nan_SF in Ec.
      assert (E : ch = NaN).
      { apply Prim2SF_inj. now destruct (Prim2SF ch). }
      rewrite E in Hn. discriminate Hn.
    - apply Math_min_100_range, scaled_abs_sign, Ec. }
  assert (Hd : isNaN (last_point histogram) = false ->
               isNaN (Math_min (Math_abs ch * 10)%float 100%float) = false).
  { intros Hl. subst ch. rewrite (last_point_defined _ Hl).
    apply Math_min_100_range, scaled_abs_sign, Hl. }
  destruct ((len macdLine <? 3) || (len signalLine <? 3));
    [split; [split|]; reflexivity|].
  destruct (_ && _); [split; assumption|].
  destruct (_ && _); [split; assumption|].
  split; [split|]; reflexivity.
Qed.

(** ** True range and ATR *)

Lemma float_lt_neg_trans (a b : number) :
  (b <? a)%float = true -> (b <? 0)%float = false -> (a <? 0)%float = false.
Proof.
  rewrite !ltb_spec. change (Prim2SF 0) with (S754_zero false).
  unfold SFltb.
  destruct (Prim2SF a) as [sa|sa| |sa ma ea],
           (Prim2SF b) as [sb|sb| |sb mb eb]; cbn;
    try reflexivity; try discriminate;
    destruct sa, sb; cbn; try reflexivity; try discriminate.
Qed.

Lemma float_neg_lt (a b : number) :
  (a <? 0)%float = true -> (b <? 0)%float = false -> is_nan b = false ->
  (a <? b)%float = true.
Proof.
  rewrite is_nan_SF, !ltb_spec. change (Prim2SF 0) with (S754_zero false).
  unfold SFltb.
  destruct (Prim2SF a) as [sa|sa| |sa ma ea],
           (Prim2SF b) as [sb|sb| |sb mb eb]; cbn;
    try reflexivity; try discriminate;
    destruct sa, sb; cbn; try reflexivity; try discriminate.
Qed.

Lemma Math_max_not_neg (a b : number) :
  (b <? 0)%float = false -> (Math_max a b <? 0)%float = false.
Proof.
  intros Hb. unfold Math_max, isNaN.
  destruct (is_nan a) eqn:Ea; [reflexivity|].
  destruct (is_nan b) eqn:Eb; [reflexivity|]. cbn [orb].
  destruct (a <? b)%float eqn:E1; [exact Hb|].
  destruct (b <? a)%float eqn:E2; [now apply (float_lt_neg_trans a b)|].
  destruct (is_neg_zero a); [exact Hb|].
  destruct (a <? 0)%float eqn:E3; [|reflexivity].
  rewrite (float_neg_lt a b E3 Hb Eb) in E1. discriminate E1.
Qed.

(** X7. The true range of the first candle is [high - low]; for every later
    candle it is never negative (it is NaN or at least 0), whatever the
    candle holds. *)
Theorem trueRange_values (data : list CandleData) :
  (1 <= Z.of_nat (length data) ->
   index (trueRange data) 0
   = (high (candle data 0) - low (candle data 0))%float)
  /\ (forall i, 1 <= i < Z.of_nat (length data) ->
        (index (trueRange data) i <? 0)%float = false).
Proof.
  unfold trueRange.
  apply (for_loop_ind
           (fun n tr =>
              len tr = n
              /\ (1 <= n ->
                  index tr 0 = (high (candle data 0) - low (candle data 0))%float)
              /\ (forall i, 1 <= i < n -> (index tr i <? 0)%float = false)));
    [lia | repeat split; intros; lia |].
  intros n tr Hn (Hl & H0 & Hi).
  destruct (Z.eqb_spec n 0) as [->|Hne].
  - split; [rewrite len_app, Hl; reflexivity|].
    split; [intros _; now apply index_app_end | intros i ?; lia].
  - split; [rewrite len_app, Hl; reflexivity|].
    split; [intros _; rewrite index_app_l by lia; apply H0; lia|].
    intros i Hb. destruct (Z.eq_dec i n) as [->|Hin].
    + rewrite (index_app_end _ _ _ Hl).
      apply Math_max_not_neg, abs_not_neg.
    + rewrite index_app_l by lia. apply Hi. lia.
Qed.

(** X8. [calculateATR] keeps the warm-up of the EMA it is built on: one
    entry per candle, NaN before index [period - 1], and nothing but NaN
    when there are fewer candles than the period. *)
Theorem calculateATR_warmup (data : list CandleData) (period : Z) :
  (0 <= period -> len (calculateATR data period) = Z.of_nat (length data))
  /\ (forall j, 0 <= j < period - 1 -> index (calculateATR data period) j = NaN)
  /\ (Z.of_nat (length data) < period ->
      calculateATR data period = repeat NaN (length data)).
Proof.
  unfold calculateATR. split; [|split].
  - intros Hp. rewrite calculateEMA_len_nonneg by assumption.
    apply trueRange_len.
  - intros j Hj. now apply calculateEMA_warmup.
  - intros Hlt. pose proof (trueRange_len data) as Hl.
    rewrite calculateEMA_too_short by lia.
    f_equal. unfold len in Hl. lia.
Qed.

(** ** Position sizing, profit and loss, risk and reward *)

Lemma float_sub_diag (x : number) : is_finite x = true -> (x - x)%float = 0%float.
Proof.
  rewrite is_finite_SF. intros Hf. apply Prim2SF_inj. rewrite sub_spec.
  change (Prim2SF 0) with (S754_zero false).
  destruct (Prim2SF x) as [s|s| |s m e]; try discriminate Hf.
  - now destruct s.
  - cbn. now rewrite Z.sub_diag.
Qed.

(** A price that passes a guard [price <= 0] and is finite. *)
Lemma positive_finite_SF (x : number) :
  (0 <? x)%float = true -> is_finite x = true ->
  exists m e, Prim2SF x = S754_finite false m e.
Proof.
  rewrite ltb_spec, is_finite_SF. change (Prim2SF 0) with (S754_zero false).
  destruct (Prim2SF x) as [s|s| |s m e]; try discriminate.
  destruct s; [discriminate|]. intros _ _. now exists m, e.
Qed.

Lemma float_div_by_zero_not_finite (a : number) :
  is_finite (a / 0)%float = false.
Proof.
  rewrite is_finite_SF, div_spec. change (Prim2SF 0) with (S754_zero false).
  now destruct (Prim2SF a).
Qed.

Lemma Math_floor_not_finite (x : number) :
  is_finite x = false -> Math_floor x = x.
Proof.
  rewrite is_finite_SF. unfold Math_floor.
  now destruct (Prim2SF x).
Qed.

Lemma Math_floor_nan : Math_floor NaN = NaN.
Proof. reflexivity. Qed.

(** X9. [calculateRiskRewardRatio] never returns a negative ratio: a
    returned value is NaN or at least 0. *)
Theorem calculateRiskRewardRatio_not_negative
        (entryPrice stopLoss takeProfit r : number) :
  calculateRiskRewardRatio entryPrice stopLoss takeProfit = Return r ->
  (r <? 0)%float = false.
Proof.
  unfold calculateRiskRewardRatio, Math_abs.
  destruct (_ || _); [discriminate|].
  destruct (_ =? 0)%float; [discriminate|].
  intros [= <-].
  set (risk := abs (entryPrice - stopLoss)).
  set (reward := abs (takeProfit - entryPrice)).
  destruct (is_nan risk) eqn:E1.
  { apply nan_not_neg. rewrite is_nan_SF in *. rewrite div_spec.
    destruct (Prim2SF risk); try discriminate E1.
    now destruct (Prim2SF reward). }
  destruct (is_nan reward) eqn:E2.
  { apply nan_not_neg. rewrite is_nan_SF in *. rewrite div_spec.
    now destruct (Prim2SF reward); try discriminate E2. }
  assert (H1 : has_sign false (Prim2SF risk)).
  { subst risk. rewrite is_nan_SF, abs_spec in E1. rewrite abs_spec.
    apply has_sign_abs. intros E. now rewrite E in E1. }
  assert (H2 : has_sign false (Prim2SF reward)).
  { subst reward. rewrite is_nan_SF, abs_spec in E2. rewrite abs_spec.
    apply has_sign_abs. intros E. now rewrite E in E2. }
  destruct (has_sign_div _ _ H2 H1) as [Hn|Hs].
  - apply nan_not_neg. rewrite is_nan_SF, div_spec, Hn. reflexivity.
  - apply has_sign_not_neg. now rewrite div_spec.
Qed.

Lemma calculateRiskRewardRatio_not_negative_witness :
  (calculateRiskRewardRatio 100 95 110)%float = Return 2%float
  /\ (2 <? 0)%float = false.
Proof.
  split; [reflexivity|].
  exact (calculateRiskRewardRatio_not_negative 100 95 110 2 eq_refl)%float.
Defined.

(** X10. A stop loss equal to a positive, finite entry price leaves no risk,
    and [calculateRiskRewardRatio] rejects it with "Risk cannot be zero". *)
Theorem calculateRiskRewardRatio_zero_risk (price takeProfit : number) :
  (0 <? price)%float = true -> is_finite price = true ->
  (0 <? takeProfit)%float = true ->
  calculateRiskRewardRatio price price takeProfit = Throw "Risk cannot be zero".
Proof.
  intros Hp Hf Ht. unfold calculateRiskRewardRatio, Math_abs.
  rewrite (float_ltb_not_geb _ _ Hp), (float_ltb_not_geb _ _ Ht). cbn [orb].
  rewrite (float_sub_diag _ Hf). reflexivity.
Qed.

Lemma calculateRiskRewardRatio_zero_risk_witness :
  (0 <? 100)%float = true /\ is_finite 100%float = true /\ (0 <? 110)%float = true
  /\ (calculateRiskRewardRatio 100 100 110)%float = Throw "Risk cannot be zero".
Proof.
  repeat (split; [reflexivity|]).
  exact (calculateRiskRewardRatio_zero_risk 100 110 eq_refl eq_refl eq_refl)%float.
Defined.

(** X11. [calculatePositionSize] has no such guard: with a stop loss equal to
    a positive, finite entry price and a valid risk percentage it throws
    nothing and returns a value that is not finite (Infinity or NaN). *)
Theorem calculatePositionSize_zero_risk
        (accountBalance riskPercentage price : number) :
  (0 <? price)%float = true -> is_finite price = true ->
  (0 <? riskPercentage)%float = true -> (riskPercentage <=? 100)%float = true ->
  exists size,
    calculatePositionSize accountBalance riskPercentage price price = Return size
    /\ is_finite size = false.
Proof.
  intros Hp Hf Hr Hr100. unfold calculatePositionSize, Math_abs.
  rewrite (float_ltb_not_geb _ _ Hp), (float_ltb_not_geb _ _ Hr),
    (float_leb_not_gtb _ _ Hr100). cbn [orb].
  rewrite (float_sub_diag _ Hf). change (abs 0%float) with 0%float.
  eexists. split; [reflexivity|].
  rewrite Math_floor_not_finite; apply float_div_by_zero_not_finite.
Qed.

Lemma calculatePositionSize_zero_risk_witness :
  (0 <? 100)%float = true /\ is_finite 100%float = true
  /\ (0 <? 2)%float = true /\ (2 <=? 100)%float = true
  /\ exists size,
       (calculatePositionSize 10000 2 100 100)%float = Return size
       /\ is_finite size = false.
Proof.
  repeat (split; [reflexivity|]).
  exact (calculatePositionSize_zero_risk 10000 2 100
           eq_refl eq_refl eq_refl eq_refl)%float.
Defined.

(** X12. Leaving a trade at its positive, finite entry price is a result of
    zero percent: [0] for a long position and [-0] for a short one. *)
Theorem calculateProfitLossPercentage_break_even (price : number) :
  (0 <? price)%float = true -> is_finite price = true ->
  calculateProfitLossPercentage price price LONG = Return 0%float
  /\ calculateProfitLossPercentage price price SHORT = Return (-0)%float.
Proof.
  intros Hp Hf. unfold calculateProfitLossPercentage.
  rewrite (float_ltb_not_geb _ _ Hp). cbn [orb].
  rewrite (float_sub_diag _ Hf).
  assert (E : (0 / price)%float = 0%float).
  { destruct (positive_finite_SF _ Hp Hf) as (m & e & Hx).
    apply Prim2SF_inj. rewrite div_spec, Hx. reflexivity. }
  rewrite E. split; reflexivity.
Qed.

Lemma calculateProfitLossPercentage_break_even_witness :
  (0 <? 100)%float = true /\ is_finite 100%float = true
  /\ (calculateProfitLossPercentage 100 100 LONG)%float = Return 0%float.
Proof.
  repeat (split; [reflexivity|]).
  exact (proj1 (calculateProfitLossPercentage_break_even 100%float eq_refl eq_refl)).
Defined.

(** X13. The guards compare with [<=], which is false on NaN: an entry
    price that is NaN is not rejected.  With the other arguments valid, the
    three calculations return NaN instead of throwing. *)
Theorem nan_entry_price_not_rejected
        (accountBalance riskPercentage other : number) (tradeType : TradeType) :
  (0 <? other)%float = true ->
  (0 <? riskPercentage)%float = true -> (riskPercentage <=? 100)%float = true ->
  calculatePositionSize accountBalance riskPercentage NaN other = Return NaN
  /\ calculateProfitLossPercentage NaN other tradeType = Return NaN
  /\ calculateRiskRewardRatio NaN other other = Return NaN.
Proof.
  intros Ho Hr Hr100.
  unfold calculatePositionSize, calculateProfitLossPercentage,
    calculateRiskRewardRatio, Math_abs.
  rewrite (float_ltb_not_geb _ _ Ho), (float_ltb_not_geb _ _ Hr),
    (float_leb_not_gtb _ _ Hr100).
  change (NaN <=? 0)%float with false. cbn [orb].
  rewrite !float_nan_sub, !float_sub_nan. change (abs NaN) with NaN.
  change (NaN =? 0)%float with false. cbv iota.
  rewrite !float_div_nan, Math_floor_nan, float_nan_mul.
  split; [reflexivity|]. split; [now destruct tradeType | reflexivity].
Qed.

Lemma nan_entry_price_not_rejected_witness :
  (0 <? 95)%float = true /\ (0 <? 2)%float = true /\ (2 <=? 100)%float = true
  /\ (calculateRiskRewardRatio NaN 95 95)%float = Return NaN.
Proof.
  repeat (split; [reflexivity|]).
  exact (proj2 (proj2 (nan_entry_price_not_rejected 10000%float 2%float 95%float LONG
                         eq_refl eq_refl eq_refl))).
Defined.

(** ** Symbols *)

Lemma str_eqb_eq a b : str_eqb a b = true <-> a = b.
Proof.
  unfold str_eqb. destruct (list_eq_dec N.eq_dec a b); split;
    congruence || discriminate.
Qed.

Lemma arr_includes_In l x : arr_includes l x = true <-> In x l.
Proof.
  unfold arr_includes. rewrite existsb_exists. split.
  - intros (y & Hy & E). apply str_eqb_eq in E. now subst.
  - intros H. exists x. split; [assumption | now apply str_eqb_eq].
Qed.

Lemma str_includes_char s c : str_includes s [c] = true -> In c s.
Proof.
  induction s as [|d s IH]; cbn [str_includes starts_with];
    [discriminate|].
  intros [E|H]%orb_prop.
  - left. apply andb_prop in E as [E _]. apply N.eqb_eq in E. congruence.
  - right. now apply IH.
Qed.

Lemma six_letters_no_hyphen s :
  str_includes s (lit "-") = true -> test_six_letters s = false.
Proof.
  intros H%str_includes_char. unfold test_six_letters.
  destruct (forallb is_upper s) eqn:E; [|apply andb_false_r].
  rewrite forallb_forall in E. specialize (E _ H). discriminate E.
Qed.

Section SymbolFacts.

Variable trim : jsstring -> jsstring.
Variable toUpperCase : jsstring -> jsstring.

Lemma getAssetType_forex_iff symbol :
  getAssetType trim toUpperCase symbol = forex
  <-> ((length (normalize trim toUpperCase symbol) =? 6)%nat
       && test_six_letters (normalize trim toUpperCase symbol)
       && (let base := substring (normalize trim toUpperCase symbol) 0 3 in
           let quote := substring (normalize trim toUpperCase symbol) 3 6 in
           (arr_includes currencies base && arr_includes currencies quote)
           || (arr_includes metals base && arr_includes currencies quote)
           || (arr_includes currencies base && arr_includes metals quote)))
      = true.
Proof.
  unfold getAssetType. cbn zeta.
  destruct (_ && test_six_letters _); cbn [andb].
  - destruct (_ || _); [tauto|].
    destruct (str_includes _ _); split; discriminate.
  - destruct (str_includes _ _); split; discriminate.
Qed.

(** X14. A symbol whose normal form contains a hyphen is a crypto pair: it
    cannot pass the six-letter test of the forex branch. *)
Theorem getAssetType_hyphen (symbol : jsstring) :
  str_includes (normalize trim toUpperCase symbol) (lit "-") = true ->
  getAssetType trim toUpperCase symbol = crypto.
Proof.
  intros H. unfold getAssetType. cbn zeta.
  rewrite (six_letters_no_hyphen _ H), andb_false_r, H. reflexivity.
Qed.

(** X15. Every symbol classified as forex is a valid symbol. *)
Theorem getAssetType_forex_valid (symbol : jsstring) :
  getAssetType trim toUpperCase symbol = forex ->
  validateSymbol trim toUpperCase symbol = true.
Proof.
  intros H%getAssetType_forex_iff.
  apply andb_prop in H as [H _]. apply andb_prop in H as [Hlen Hsix].
  unfold validateSymbol, test_symbol_chars. cbn zeta.
  apply Nat.eqb_eq in Hlen. rewrite Hlen. cbn [Nat.eqb negb andb].
  unfold test_six_letters in Hsix. apply andb_prop in Hsix as [_ Hup].
  rewrite forallb_forall in *. intros c Hc. now rewrite (Hup c Hc).
Qed.

Lemma code_shape :
  Forall (fun c => exists x y z, c = [x; y; z] /\ forallb is_upper c = true)
         (currencies ++ metals).
Proof.
  repeat (constructor; [do 3 eexists; split; reflexivity|]). constructor.
Qed.

Lemma code_in_shape c :
  In c currencies \/ In c metals ->
  exists x y z, c = [x; y; z] /\ forallb is_upper c = true.
Proof.
  intros H. pose proof code_shape as Hs. rewrite Forall_forall in Hs.
  apply Hs, in_or_app, H.
Qed.

(** X16. A symbol is forex exactly when its normal form is a base code
    followed by a quote code, both currencies or one of them a precious
    metal; two metals do not make a forex pair. *)
Theorem getAssetType_forex_pairs (symbol : jsstring) :
  getAssetType trim toUpperCase symbol = forex
  <-> exists base quote,
        normalize trim toUpperCase symbol = base ++ quote
        /\ ((In base currencies /\ In quote currencies)
            \/ (In base metals /\ In quote currencies)
            \/ (In base currencies /\ In quote metals)).
Proof.
  rewrite getAssetType_forex_iff. split.
  - intros H. apply andb_prop in H as [H Hp].
    apply andb_prop in H as [Hlen _]. apply Nat.eqb_eq in Hlen.
    destruct (normalize trim toUpperCase symbol)
      as [|a [|b [|c [|d [|e [|f [|]]]]]]]; try discriminate Hlen.
    exists [a; b; c], [d; e; f]. split; [reflexivity|].
    cbn zeta in Hp. change (substring _ 0 3) with [a; b; c] in Hp.
    change (substring _ 3 6) with [d; e; f] in Hp.
    rewrite !orb_true_iff, !andb_true_iff, !arr_includes_In in Hp. tauto.
  - intros (base & quote & -> & Hin).
    assert (Hb : In base currencies \/ In base metals) by tauto.
    assert (Hq : In quote currencies \/ In quote metals) by tauto.
    destruct (code_in_shape _ Hb) as (a & b & c & -> & Ub).
    destruct (code_in_shape _ Hq) as (d & e & f & -> & Uq).
    unfold test_six_letters. rewrite forallb_app, Ub, Uq.
    cbn [app length Nat.eqb andb]. cbn zeta.
    change (substring _ 0 3) with [a; b; c].
    change (substring _ 3 6) with [d; e; f].
    rewrite !orb_true_iff, !andb_true_iff, !arr_includes_In. tauto.
Qed.

End SymbolFacts.

Lemma getAssetType_hyphen_witness :
  str_includes (normalize (fun s => s) (fun s => s) (lit "BTC-USD")) (lit "-")
  = true
  /\ getAssetType (fun s => s) (fun s => s) (lit "BTC-USD") = crypto.
Proof.
  split; [reflexivity|].
  exact (getAssetType_hyphen (fun s => s) (fun s => s) (lit "BTC-USD") eq_refl).
Defined.

Lemma getAssetType_forex_valid_witness :
  getAssetType (fun s => s) (fun s => s) (lit "EURUSD") = forex
  /\ validateSymbol (fun s => s) (fun s => s) (lit "EURUSD") = true.
Proof.
  split; [reflexivity|].
  exact (getAssetType_forex_valid (fun s => s) (fun s => s) (lit "EURUSD")
                                  eq_refl).
Defined.

Example getAssetType_samples :
  map (getAssetType (fun s => s) (fun s => s))
      (map lit ["EURUSD"; "XAUUSD"; "XAUXAG"; "BTC-USD"; "AAPL"; "GOOGLE"; ""]%string)
  = [forex; forex; stock; crypto; stock; stock; stock].
Proof. reflexivity. Qed.

(** ** Appending prices *)

Lemma sum_range_app data more lo hi :
  0 <= lo -> hi <= len data ->
  sum_range (data ++ more) lo hi = sum_range data lo hi.
Proof.
  intros Hlo Hhi. unfold sum_range. f_equal.
  apply map_ext_in. intros j Hj%In_zrange. apply index_app_l. lia.
Qed.

Lemma calculateSMA_index_app data more period i :
  0 <= i < len data ->
  index (calculateSMA (data ++ more) period) i
  = index (calculateSMA data period) i.
Proof.
  intros Hi. pose proof (len_nonneg more) as Hm.
  rewrite !calculateSMA_index by (rewrite ?len_app; lia).
  unfold sma_at. destruct (Z.ltb_spec i (period - 1)); [reflexivity|].
  rewrite !slice_window by (rewrite ?len_app; lia).
  do 2 f_equal. apply map_ext_in. intros j Hj%In_zrange.
  apply index_app_l. lia.
Qed.

(** A list of which another repeats every entry is a prefix of it. *)
Lemma prefix_of_index (a b : list number) :
  len a <= len b ->
  (forall i, 0 <= i < len a -> index b i = index a i) ->
  exists tl, b = a ++ tl.
Proof.
  unfold len. intros Hl Hi. exists (skipn (length a) b).
  rewrite <- (firstn_skipn (length a) b) at 1. f_equal.
  apply nth_ext with (d := NaN) (d' := NaN).
  - rewrite length_firstn. lia.
  - intros n Hn. rewrite length_firstn in Hn. rewrite nth_firstn.
    destruct (Nat.ltb_spec n (length a)); [|lia].
    specialize (Hi (Z.of_nat n) ltac:(lia)). unfold index in Hi.
    destruct (Z.ltb_spec (Z.of_nat n) 0); [lia|].
    now rewrite Nat2Z.id in Hi.
Qed.

(** X17. [calculateSMA] never looks ahead: the series computed for a list of
    prices is a prefix of the series computed for any extension of it. *)
Theorem calculateSMA_append (data more : list number) (period : Z) :
  exists tl,
    calculateSMA (data ++ more) period = calculateSMA data period ++ tl.
Proof.
  apply prefix_of_index.
  - rewrite !calculateSMA_len, len_app. pose proof (len_nonneg more). lia.
  - intros i Hi. rewrite calculateSMA_len in Hi.
    now apply calculateSMA_index_app.
Qed.

Lemma calculateEMA_append_long data more period :
  1 <= period <= len data ->
  forall n i, i = Z.of_nat n -> i < len data ->
    index (calculateEMA (data ++ more) period) i
    = index (calculateEMA data period) i.
Proof.
  intros Hp. pose proof (len_nonneg more) as Hm.
  destruct (calculateEMA_values data period Hp) as (_ & Hn1 & Hs1 & Hr1).
  destruct (calculateEMA_values (data ++ more) period
              ltac:(rewrite len_app; lia)) as (_ & Hn2 & Hs2 & Hr2).
  induction n as [|n IH]; intros i -> Hi.
  - destruct (Z.eq_dec period 1) as [->|Hne].
    + change (Z.of_nat 0) with (1 - 1). rewrite Hs1, Hs2.
      now rewrite sum_range_app by lia.
    + rewrite Hn1, Hn2 by lia. reflexivity.
  - destruct (Z.lt_trichotomy (Z.of_nat (S n)) (period - 1)) as [Hlt|[Heq|Hgt]].
    + rewrite Hn1, Hn2 by lia. reflexivity.
    + rewrite Heq, Hs1, Hs2. now rewrite sum_range_app by lia.
    + rewrite Hr1, Hr2 by (rewrite ?len_app; lia).
      replace (Z.of_nat (S n) - 1) with (Z.of_nat n) by lia.
      rewrite (IH (Z.of_nat n) eq_refl) by lia.
      now rewrite index_app_l by lia.
Qed.

Lemma calculateEMA_index_app data more period i :
  0 <= i < len data ->
  index (calculateEMA (data ++ more) period) i
  = index (calculateEMA data period) i.
Proof.
  intros Hi. pose proof (len_nonneg more) as Hm.
  destruct (Z.le_gt_cases period 0) as [Hnp|Hpos].
  - rewrite !calculateEMA_period_le_0 by assumption.
    now rewrite !index_repeat_NaN.
  - destruct (Z.le_gt_cases period (len data)) as [Hle|Hgt].
    + apply (calculateEMA_append_long data more period ltac:(lia)
                                      (Z.to_nat i)); lia.
    + rewrite (calculateEMA_too_short data) by assumption.
      rewrite index_repeat_NaN.
      destruct (Z.eq_dec i (period - 1)) as [E|E]; [lia|].
      apply calculateEMA_warmup. lia.
Qed.

Lemma calculateEMA_prefix data more period :
  exists tl,
    calculateEMA (data ++ more) period = calculateEMA data period ++ tl.
Proof.
  pose proof (len_nonneg data) as Hd. pose proof (len_nonneg more) as Hm.
  destruct (Z.le_gt_cases period 0) as [Hnp|Hpos].
  - rewrite !calculateEMA_period_le_0, len_app by assumption.
    exists (repeat NaN (Z.to_nat (len more))).
    rewrite <- repeat_app. f_equal. lia.
  - apply prefix_of_index.
    + rewrite !calculateEMA_len_nonneg, len_app by lia. lia.
    + intros i Hi. rewrite calculateEMA_len_nonneg in Hi by lia.
      now apply calculateEMA_index_app.
Qed.

(** X18. [calculateEMA] never looks ahead either, for every period: the
    series computed for a list of prices is a prefix of the series computed
    for any extension of it, and so every value already computed stays. *)
Theorem calculateEMA_append (data more : list number) (period : Z) :
  (exists tl,
     calculateEMA (data ++ more) period = calculateEMA data period ++ tl)
  /\ forall i, 0 <= i < len data ->
       index (calculateEMA (data ++ more) period) i
       = index (calculateEMA data period) i.
Proof.
  split; [apply calculateEMA_prefix|]. intros i Hi.
  now apply calculateEMA_index_app.
Qed.

(** ** The latest bar *)

Lemma len_pos_of_nonempty (l : list number) : l <> [] -> 1 <= len l.
Proof. destruct l; [congruence|]. unfold len. cbn [length]. lia. Qed.

(** X19. [analyzeMACDSignal] classifies the latest bar only: once both
    lines have three points, the result depends on nothing but the last two
    points of each line and the last histogram value. *)
Theorem analyzeMACDSignal_latest_bar
        (m m' s s' h h' : list number) (a b c d e : number) :
  m <> [] -> m' <> [] -> s <> [] -> s' <> [] ->
  analyzeMACDSignal (m ++ [a; b]) (s ++ [c; d]) (h ++ [e])
  = analyzeMACDSignal (m' ++ [a; b]) (s' ++ [c; d]) (h' ++ [e]).
Proof.
  intros Hm Hm' Hs Hs'.
  assert (H : forall m s h, m <> [] -> s <> [] ->
            analyzeMACDSignal (m ++ [a; b]) (s ++ [c; d]) (h ++ [e])
            = analyzeMACDSignal [a; a; b] [c; c; d] [e]).
  { clear. intros m s h Hm%len_pos_of_nonempty Hs%len_pos_of_nonempty.
    unfold analyzeMACDSignal.
    rewrite !len_app. change (len [?x; ?y]) with 2. change (len [?x]) with 1.
    change (len [?x; ?y; ?z]) with 3.
    destruct (Z.ltb_spec (len m + 2) 3); [lia|].
    destruct (Z.ltb_spec (len s + 2) 3); [lia|].
    replace (len m + 2 - 1) with (len m + 1) by lia.
    replace (len m + 2 - 2) with (len m + 0) by lia.
    replace (len s + 2 - 1) with (len s + 1) by lia.
    replace (len s + 2 - 2) with (len s + 0) by lia.
    replace (len h + 1 - 1) with (len h + 0) by lia.
    rewrite !index_app_plus by lia. reflexivity. }
  now rewrite (H m s h), (H m' s' h').
Qed.

Lemma analyzeMACDSignal_latest_bar_witness :
  [0%float] <> [] /\ [7; 8]%float <> [] /\ [0%float] <> [] /\ [9%float] <> []
  /\ analyzeMACDSignal ([0] ++ [-1; 1])%float ([0] ++ [0; 0])%float
                       ([] ++ [5])%float
     = analyzeMACDSignal ([7; 8] ++ [-1; 1])%float ([9] ++ [0; 0])%float
                         ([1; 2] ++ [5])%float.
Proof.
  repeat (split; [discriminate|]).
  apply analyzeMACDSignal_latest_bar; discriminate.
Defined.

Lemma for_loop_split {St} lo mid hi (body : Z -> St -> St) s :
  lo <= mid <= hi ->
  for_loop lo hi body s = for_loop mid hi body (for_loop lo mid body s).
Proof.
  intros H. unfold for_loop. now rewrite (zrange_app lo mid hi), fold_left_app.
Qed.

Lemma for_loop_ext {St} lo hi (body body' : Z -> St -> St) s :
  (forall i st, lo <= i < hi -> body i st = body' i st) ->
  for_loop lo hi body s = for_loop lo hi body' s.
Proof.
  intros Hb. destruct (Z.le_gt_cases lo hi) as [Hle|Hgt].
  - apply (for_loop_ind (fun i st => st = for_loop lo i body' s));
      [assumption | now rewrite for_loop_nil by lia |].
    intros i st Hi ->. rewrite for_loop_snoc by lia. now apply Hb.
  - now rewrite !for_loop_nil by lia.
Qed.

Lemma index_app_lt a b i : i < len a -> index (a ++ b) i = index a i.
Proof.
  intros H. destruct (Z.lt_ge_cases i 0) as [Hn|Hp].
  - unfold index. now destruct (Z.ltb_spec i 0); [|lia].
  - apply index_app_l. lia.
Qed.

Lemma rsi_step_app data more period i st :
  i < len data ->
  rsi_step (data ++ more) period i st = rsi_step data period i st.
Proof.
  intros H. unfold rsi_step. now rewrite !index_app_lt by lia.
Qed.

Lemma rsi_seed_app data more period :
  period + 1 <= len data ->
  rsi_seed (data ++ more) period = rsi_seed data period.
Proof.
  intros H. pose proof (len_nonneg more). unfold rsi_seed.
  rewrite len_app, !Z.min_l by lia.
  apply for_loop_ext. intros i st Hi. now rewrite !index_app_lt by lia.
Qed.

Lemma rsi_loop_prefix data period lo hi st :
  exists tl, rsi (for_loop lo hi (rsi_step data period) st) = rsi st ++ tl.
Proof.
  destruct (Z.le_gt_cases lo hi) as [Hle|Hgt].
  - apply (for_loop_ind (fun _ st' => exists tl, rsi st' = rsi st ++ tl));
      [assumption | exists []; now rewrite app_nil_r |].
    intros i st' _ [tl E]. rewrite rsi_step_rsi, E, <- app_assoc. eauto.
  - rewrite for_loop_nil by lia. exists []. now rewrite app_nil_r.
Qed.

(** X20. [calculateRSI] never looks ahead: the series computed for a list
    of prices is a prefix of the series computed for any extension of it. *)
Theorem calculateRSI_append (data more : list number) (period : Z) :
  exists tl,
    calculateRSI (data ++ more) period = calculateRSI data period ++ tl.
Proof.
  pose proof (len_nonneg more) as Hm. unfold calculateRSI.
  destruct (Z.le_gt_cases (period + 1) (len data)) as [Hle|Hgt].
  - unfold calculateRSI_run at 1.
    rewrite rsi_seed_app, len_app by assumption.
    rewrite (for_loop_split (period + 1) (len data)) by lia.
    rewrite (for_loop_ext (period + 1) (len data)
                          (rsi_step (data ++ more) period)
                          (rsi_step data period))
      by (intros; apply rsi_step_app; lia).
    fold (calculateRSI_run data period).
    apply rsi_loop_prefix.
  - destruct (calculateRSI_run_shape data period) as [Hl H0].
    destruct (calculateRSI_run_shape (data ++ more) period) as [Hl' H0'].
    cbn zeta in *. apply prefix_of_index; [lia|].
    intros i Hi. assert (i = 0) as -> by lia. now rewrite H0, H0'.
Qed.

Lemma sd_at_app data more period i :
  0 <= i < len data -> period - 1 <= i ->
  sd_at (data ++ more) period i = sd_at data period i.
Proof.
  intros Hi Hp. pose proof (len_nonneg more) as Hm. unfold sd_at.
  rewrite calculateSMA_index_app by assumption.
  rewrite !slice_window by (rewrite ?len_app; lia).
  f_equal. apply map_ext_in. intros j Hj%In_zrange.
  apply index_app_l. lia.
Qed.

Lemma map_zrange_app (f g : Z -> number) n k :
  0 <= n -> 0 <= k ->
  (forall i, 0 <= i < n -> f i = g i) ->
  exists tl, map f (zrange 0 (n + k)) = map g (zrange 0 n) ++ tl.
Proof.
  intros Hn Hk Hfg. rewrite (zrange_app 0 n (n + k)), map_app by lia.
  eexists. f_equal. apply map_ext_in. intros i Hi%In_zrange. now apply Hfg.
Qed.

(** X21. [calculateBollingerBands] never looks ahead: each of the three
    bands computed for a list of prices is a prefix of the band computed for
    any extension of it. *)
Theorem calculateBollingerBands_append
        (data more : list number) (period : Z) (stdDev : number) :
  (exists tl, upper (calculateBollingerBands (data ++ more) period stdDev)
              = upper (calculateBollingerBands data period stdDev) ++ tl)
  /\ (exists tl, middle (calculateBollingerBands (data ++ more) period stdDev)
                 = middle (calculateBollingerBands data period stdDev) ++ tl)
  /\ (exists tl, lower (calculateBollingerBands (data ++ more) period stdDev)
                 = lower (calculateBollingerBands data period stdDev) ++ tl).
Proof.
  pose proof (len_nonneg data) as Hd. pose proof (len_nonneg more) as Hm.
  rewrite !calculateBollingerBands_map, len_app. cbn [upper middle lower].
  repeat split; apply map_zrange_app; trivial; intros i Hi;
    unfold upper_at, middle_at, lower_at;
    (destruct (Z.ltb_spec i (period - 1)); [reflexivity|]);
    now rewrite ?sd_at_app, calculateSMA_index_app by lia.
Qed.

Lemma macd_line_app data more fastPeriod slowPeriod :
  exists tl,
    macd_line (data ++ more) (calculateEMA (data ++ more) fastPeriod)
              (calculateEMA (data ++ more) slowPeriod)
    = macd_line data (calculateEMA data fastPeriod)
                (calculateEMA data slowPeriod) ++ tl.
Proof.
  pose proof (len_nonneg data) as Hd. pose proof (len_nonneg more) as Hm.
  rewrite !macd_line_map, len_app.
  rewrite (zrange_app 0 (len data) (len data + len more)), map_app by lia.
  eexists. f_equal. apply map_ext_in. intros i Hin%In_zrange.
  unfold macd_at. now rewrite !calculateEMA_index_app by lia.
Qed.

Lemma rank_defined_app l tl i :
  0 <= i <= len l -> rank_defined (l ++ tl) i = rank_defined l i.
Proof.
  intros H. unfold rank_defined, len in *.
  rewrite firstn_app. replace (Z.to_nat i - length l)%nat with 0%nat by lia.
  now rewrite app_nil_r.
Qed.

Lemma rank_defined_lt l i :
  0 <= i < len l -> isNaN (index l i) = false ->
  rank_defined l i < count_defined l.
Proof.
  intros Hi Hd. pose proof (rank_defined_succ l i Hi) as Hs.
  rewrite Hd in Hs. pose proof (rank_defined_le l (i + 1)). lia.
Qed.

(** X22. [calculateMACD] never looks ahead: the macd line, the signal line
    and the histogram computed for a list of prices are prefixes of those
    computed for any extension of it. *)
Theorem calculateMACD_append (data more : list number)
        (fastPeriod slowPeriod signalPeriod : Z) :
  (exists tl, macd (calculateMACD (data ++ more) fastPeriod slowPeriod signalPeriod)
              = macd (calculateMACD data fastPeriod slowPeriod signalPeriod) ++ tl)
  /\ (exists tl,
        signal (calculateMACD (data ++ more) fastPeriod slowPeriod signalPeriod)
        = signal (calculateMACD data fastPeriod slowPeriod signalPeriod) ++ tl)
  /\ (exists tl,
        histogram (calculateMACD (data ++ more) fastPeriod slowPeriod signalPeriod)
        = histogram (calculateMACD data fastPeriod slowPeriod signalPeriod) ++ tl).
Proof.
  unfold calculateMACD. cbn [macd signal histogram].
  destruct (macd_line_app data more fastPeriod slowPeriod) as [tl ->].
  set (m := macd_line data _ _).
  assert (Hsig : exists tl',
            calculateEMA (filter (fun val => negb (isNaN val)) (m ++ tl))
                         signalPeriod
            = calculateEMA (filter (fun val => negb (isNaN val)) m)
                           signalPeriod ++ tl').
  { rewrite filter_app. apply calculateEMA_prefix. }
  split; [now exists tl|]. split; [exact Hsig|].
  destruct Hsig as [tl' Hsig].
  destruct (histogram_loop_inv (m ++ tl) _
              (signal_covers_macd (m ++ tl) signalPeriod)) as [Hl' Hv'].
  destruct (histogram_loop_inv m _ (signal_covers_macd m signalPeriod))
    as [Hl Hv].
  pose proof (len_nonneg tl) as Ht.
  apply prefix_of_index; [rewrite Hl, Hl', len_app; lia|].
  intros i Hi. rewrite Hl in Hi.
  rewrite Hv', Hv by (rewrite ?len_app; lia).
  rewrite index_app_l, rank_defined_app by lia.
  destruct (isNaN (index m i)) eqn:E; [reflexivity|].
  f_equal. rewrite Hsig. apply index_app_l.
  split; [apply count_defined_nonneg|].
  pose proof (rank_defined_lt m i Hi E).
  pose proof (signal_covers_macd m signalPeriod). lia.
Qed.
